(** * SlabManager: a slot allocator over a growable array

    Shallow embedding of [gen::SlabManager] (src/SlabManager.hpp) and the
    verification of its index bookkeeping: the two intrusive doubly-linked
    lists (empty slots, filled slots) threaded through [elem_vec], the cached
    counters, and the conservative downsizing policy of [resize]. *)

From stdpp Require Import prelude.

Local Open Scope Z_scope.

(** ** Machine integers

    [Index] and [size_t] are 64-bit unsigned integers, embedded as [Z] with
    the wrap-around of every arithmetic operation written out. *)

Abbreviation Index := Z (only parsing).

Definition wrap (z : Z) : Z := z mod 2 ^ 64.

(** [static const Index NULL_INDEX = Index(-1);] *)
Definition NULL_INDEX : Index := wrap (-1).

(** [std::vector<Elem>::max_size()]: the largest length the vector can reach
    (an [Elem] occupies 24 bytes on an LP64 target and the library bounds the
    storage by [PTRDIFF_MAX] bytes).  The proofs only use
    [1 <= max_size] and [max_size + 1 < NULL_INDEX]. *)
Definition max_size : Z := (2 ^ 63 - 1) / 24.

(** ** Slots *)

Record Elem := mkElem { is_empty : bool; prev : Index; next : Index }.

(** [Elem() : is_empty(true), prev(NULL_INDEX), next(NULL_INDEX)] *)
Definition Elem_default : Elem := mkElem true NULL_INDEX NULL_INDEX.

Definition with_is_empty (b : bool) (e : Elem) : Elem := mkElem b (prev e) (next e).
Definition with_prev (p : Index) (e : Elem) : Elem := mkElem (is_empty e) p (next e).
Definition with_next (n : Index) (e : Elem) : Elem := mkElem (is_empty e) (prev e) n.

(** ** The vector, indexed by machine integers *)

Definition vsize (v : list Elem) : Z := Z.of_nat (length v).

Definition vget (v : list Elem) (i : Z) : option Elem :=
  if decide (0 <= i) then v !! Z.to_nat i else None.

Definition vupd (f : Elem -> Elem) (i : Z) (v : list Elem) : list Elem :=
  if decide (0 <= i) then alter f (Z.to_nat i) v else v.

(** [std::vector::resize(n)]: truncates, or appends value-initialised slots. *)
Definition vresize (n : Z) (v : list Elem) : list Elem :=
  resize (Z.to_nat n) Elem_default v.

(** ** Allocator state *)

Record SlabManager := mkSlab {
  empty_head : Index;
  filled_head : Index;
  empty_cnt : Z;
  filled_cnt : Z;
  elem_vec : list Elem
}.

Definition set_empty_head (x : Index) (s : SlabManager) : SlabManager :=
  mkSlab x (filled_head s) (empty_cnt s) (filled_cnt s) (elem_vec s).
Definition set_filled_head (x : Index) (s : SlabManager) : SlabManager :=
  mkSlab (empty_head s) x (empty_cnt s) (filled_cnt s) (elem_vec s).
Definition set_empty_cnt (x : Z) (s : SlabManager) : SlabManager :=
  mkSlab (empty_head s) (filled_head s) x (filled_cnt s) (elem_vec s).
Definition set_filled_cnt (x : Z) (s : SlabManager) : SlabManager :=
  mkSlab (empty_head s) (filled_head s) (empty_cnt s) x (elem_vec s).
Definition set_elem_vec (v : list Elem) (s : SlabManager) : SlabManager :=
  mkSlab (empty_head s) (filled_head s) (empty_cnt s) (filled_cnt s) v.

(** ** Outcomes of a member function

    A call either returns a value, or throws an exception (the state carried
    is the state of the object at the throw), or has undefined behaviour
    ([operator[]] outside the vector). *)

Inductive exn := out_of_range | logic_error | length_error.

Inductive outcome (A : Type) :=
| Returns (a : A) (s : SlabManager)
| Throws (e : exn) (s : SlabManager)
| Undefined.
Arguments Returns {A} a s.
Arguments Throws {A} e s.
Arguments Undefined {A}.

Definition M (A : Type) : Type := SlabManager -> outcome A.

Definition ret {A} (a : A) : M A := fun s => Returns a s.

Definition bind {A B} (m : M A) (k : A -> M B) : M B :=
  fun s => match m s with
           | Returns a s' => k a s'
           | Throws e s' => Throws e s'
           | Undefined => Undefined
           end.

Definition throw {A} (e : exn) : M A := fun s => Throws e s.
Definition gets {A} (f : SlabManager -> A) : M A := fun s => Returns (f s) s.
Definition modify (f : SlabManager -> SlabManager) : M unit := fun s => Returns tt (f s).

#[global] Instance slab_ret : MRet M := @ret.
#[global] Instance slab_bind : MBind M := fun A B k m => bind m k.

(** [elem_vec.size()] *)
Definition vec_size : M Z := gets (fun s => vsize (elem_vec s)).

(** A read of [elem_vec[i]]. *)
Definition read_elem (i : Index) : M Elem :=
  fun s => match vget (elem_vec s) i with
           | Some e => Returns e s
           | None => Undefined
           end.

(** A write to one field of [elem_vec[i]]. *)
Definition write_elem (i : Index) (f : Elem -> Elem) : M unit :=
  fun s => if decide (0 <= i < vsize (elem_vec s))
           then Returns tt (set_elem_vec (vupd f i (elem_vec s)) s)
           else Undefined.

(** [elem_vec.resize(n)], and the member initialiser [elem_vec(n)] of the
    constructors: a length above [max_size()] throws [length_error] and
    leaves the vector as it was.  The allocator is taken to grant every
    request within [max_size()]: [std::bad_alloc], which the vector throws
    (leaving itself unchanged) when storage cannot be obtained, is not
    modelled, so a [Returns] of a growing call describes the run in which
    the storage was obtained. *)
Definition vec_resize (n : Z) : M unit :=
  fun s => if decide (max_size < n) then Throws length_error s
           else Returns tt (set_elem_vec (vresize n (elem_vec s)) s).

(** [elem_vec.push_back(e)], under the same reading of the allocator. *)
Definition vec_push_back (e : Elem) : M unit :=
  fun s => if decide (max_size <= vsize (elem_vec s)) then Throws length_error s
           else Returns tt (set_elem_vec (elem_vec s ++ [e]) s).

(** [for (size_t i = a; i < b; i += 1) body(i)], for a body that assigns
    neither [i] nor [b]: the body runs [b - a] times when [a < b], and not
    at all otherwise. *)
Fixpoint for_loop (k : nat) (i : Z) (body : Z -> M unit) : M unit :=
  match k with
  | O => ret tt
  | S k' => body i;; for_loop k' (wrap (i + 1)) body
  end.

Definition for_range (a b : Z) (body : Z -> M unit) : M unit :=
  for_loop (Z.to_nat (b - a)) a body.

(** ** Member functions *)

Definition initialize (n : Z) : M unit :=
  modify (set_empty_head 0);;
  modify (set_filled_head NULL_INDEX);;
  (if decide (1 < n) then
     write_elem 0 (with_is_empty true);;
     write_elem 0 (with_prev NULL_INDEX);;
     write_elem 0 (with_next 1);;
     for_range 1 (wrap (n - 1)) (fun i =>
       write_elem i (with_is_empty true);;
       write_elem i (with_prev (wrap (i - 1)));;
       write_elem i (with_next (wrap (i + 1))));;
     write_elem (wrap (n - 1)) (with_is_empty true);;
     write_elem (wrap (n - 1)) (with_prev (wrap (n - 2)));;
     write_elem (wrap (n - 1)) (with_next NULL_INDEX)
   else
     write_elem 0 (with_is_empty true);;
     write_elem 0 (with_prev NULL_INDEX);;
     write_elem 0 (with_next NULL_INDEX);;
     modify (set_empty_head 0);;
     modify (set_filled_head NULL_INDEX));;
  modify (set_empty_cnt n);;
  modify (set_filled_cnt 0).

(** The members of an object under construction before any initialiser has
    run; [initialize] assigns all four scalars before any of them is read. *)
Definition uninit : SlabManager := mkSlab 0 0 0 0 [].

(** [SlabManager(size_t n) : elem_vec((n > 0) ? n : 1u)] *)
Definition construct (n : Z) : outcome unit :=
  (vec_resize (if decide (0 < n) then n else 1);;
   initialize (if decide (0 < n) then n else 1)) uninit.

(** [SlabManager() : elem_vec(1)] *)
Definition construct_default : outcome unit :=
  (vec_resize 1;; initialize 1) uninit.

Definition acquire : M Index :=
  eh ← gets empty_head;
  if decide (eh <> NULL_INDEX) then
    let rv := eh in
    e ← read_elem eh;
    modify (set_empty_head (next e));;
    eh' ← gets empty_head;
    (if decide (eh' <> NULL_INDEX) then write_elem eh' (with_prev NULL_INDEX)
     else ret tt);;
    fh ← gets filled_head;
    (if decide (fh <> NULL_INDEX) then write_elem fh (with_prev rv) else ret tt);;
    fh ← gets filled_head;
    write_elem rv (with_next fh);;
    write_elem rv (with_prev NULL_INDEX);;
    modify (set_filled_head rv);;
    write_elem rv (with_is_empty false);;
    ec ← gets empty_cnt;
    modify (set_empty_cnt (wrap (ec - 1)));;
    fc ← gets filled_cnt;
    modify (set_filled_cnt (wrap (fc + 1)));;
    ret rv
  else
    rv ← vec_size;
    vec_push_back Elem_default;;
    fh ← gets filled_head;
    (if decide (fh <> NULL_INDEX) then write_elem fh (with_prev rv) else ret tt);;
    fh ← gets filled_head;
    write_elem rv (with_next fh);;
    write_elem rv (with_prev NULL_INDEX);;
    modify (set_filled_head rv);;
    write_elem rv (with_is_empty false);;
    fc ← gets filled_cnt;
    modify (set_filled_cnt (wrap (fc + 1)));;
    ret rv.

Definition is_slot_empty (ind : Index) : M bool :=
  sz ← vec_size;
  if decide (sz <= ind) then throw out_of_range
  else e ← read_elem ind; ret (is_empty e).

Definition give_back (ind : Index) : M unit :=
  b ← is_slot_empty ind;
  if (b : bool) then throw logic_error
  else
    e ← read_elem ind;
    let prev := prev e in
    let next := next e in
    (if decide (next <> NULL_INDEX) then write_elem next (with_prev prev)
     else ret tt);;
    (if decide (prev <> NULL_INDEX) then write_elem prev (with_next next)
     else modify (set_filled_head next));;
    eh ← gets empty_head;
    (if decide (eh <> NULL_INDEX) then write_elem eh (with_prev ind) else ret tt);;
    eh ← gets empty_head;
    write_elem ind (with_next eh);;
    write_elem ind (with_prev NULL_INDEX);;
    modify (set_empty_head ind);;
    write_elem ind (with_is_empty true);;
    fc ← gets filled_cnt;
    modify (set_filled_cnt (wrap (fc - 1)));;
    ec ← gets empty_cnt;
    modify (set_empty_cnt (wrap (ec + 1))).

Definition clear : M unit :=
  sz ← vec_size; initialize sz.

Definition size : M Z := vec_size.
Definition empty_count : M Z := gets empty_cnt.
Definition filled_count : M Z := gets filled_cnt.

(** The backward scan of the downsizing branch:
    [for (size_t i = ss - 1; true; i -= 1)], leaving with [pos = i] at the
    first filled slot, or with [pos = NULL_INDEX] once [i == 0] was counted.
    Returns [(pos, cnt)]. *)
Fixpoint scan_back (i : nat) (cnt : Z) : M (Index * Z) :=
  e ← read_elem (Z.of_nat i);
  if is_empty e then
    let cnt := wrap (cnt + 1) in
    match i with
    | O => ret (NULL_INDEX, cnt)
    | S j => scan_back j cnt
    end
  else ret (Z.of_nat i, cnt).

(** The relinking loop of the downsizing branch:
    [for (size_t i = elem_vec.size() - 1; true; i -= 1)]. *)
Fixpoint relink (i : nat) : M unit :=
  e ← read_elem (Z.of_nat i);
  (if is_empty e then
     ec ← gets empty_cnt;
     modify (set_empty_cnt (wrap (ec + 1)));;
     eh ← gets empty_head;
     if decide (eh = NULL_INDEX) then
       write_elem (Z.of_nat i) (with_prev NULL_INDEX);;
       write_elem (Z.of_nat i) (with_next NULL_INDEX);;
       modify (set_empty_head (Z.of_nat i))
     else
       write_elem eh (with_prev (Z.of_nat i));;
       write_elem (Z.of_nat i) (with_prev NULL_INDEX);;
       eh ← gets empty_head;
       write_elem (Z.of_nat i) (with_next eh);;
       modify (set_empty_head (Z.of_nat i))
   else ret tt);;
  match i with
  | O => ret tt
  | S j => relink j
  end.

Definition resize (newsize : Z) : M unit :=
  ss ← vec_size;
  if decide (ss = newsize) then ret tt
  else if decide (ss < newsize) then
    vec_resize newsize;;
    for_range ss newsize (fun i =>
      write_elem i (with_prev NULL_INDEX);;
      eh ← gets empty_head;
      write_elem i (with_next eh);;
      eh ← gets empty_head;
      (if decide (eh <> NULL_INDEX) then write_elem eh (with_prev i) else ret tt);;
      modify (set_empty_head i));;
    ec ← gets empty_cnt;
    modify (set_empty_cnt (wrap (ec + wrap (newsize - ss))))
  else
    let newsize := if decide (0 < newsize) then newsize else 1 in
    '(pos, cnt) ← scan_back (Z.to_nat (wrap (ss - 1))) 0;
    if decide (pos = NULL_INDEX) then
      vec_resize newsize;;
      sz ← vec_size;
      initialize sz
    else if decide (pos = wrap (ss - 1)) then ret tt
    else
      ec ← gets empty_cnt;
      if decide (wrap (ec - cnt) < 4) then ret tt
      else
        (if decide (wrap (pos + 1) < newsize) then vec_resize newsize
         else vec_resize (wrap (pos + 1)));;
        modify (set_empty_head NULL_INDEX);;
        modify (set_empty_cnt 0);;
        sz ← vec_size;
        relink (Z.to_nat (wrap (sz - 1))).

(** [elem_vec.reserve(size)]: only the capacity of the storage may change. *)
Definition reserve (n : Z) : M unit :=
  fun s => if decide (max_size < n) then Throws length_error s else Returns tt s.

Definition resize_to_min : M unit := resize 1.

(** [elem_vec.shrink_to_fit()]: only the capacity of the storage may change. *)
Definition shrink_to_fit : M unit := ret tt.

(** ** Public interface and reachable states *)

Inductive call :=
| Acquire
| GiveBack (ind : Index)
| IsSlotEmpty (ind : Index)
| Clear
| Resize (newsize : Z)
| Reserve (n : Z)
| ResizeToMin
| ShrinkToFit.

(** Arguments are values of [size_t]. *)
Definition is_size_t (z : Z) : Prop := 0 <= z < 2 ^ 64.

Definition call_ok (c : call) : Prop :=
  match c with
  | GiveBack ind | IsSlotEmpty ind => is_size_t ind
  | Resize n | Reserve n => is_size_t n
  | _ => True
  end.

(** The state an outcome leaves the object in. *)
Definition post {A} (o : outcome A) : option SlabManager :=
  match o with
  | Returns _ s => Some s
  | Throws _ s => Some s
  | Undefined => None
  end.

Definition exec (c : call) (s : SlabManager) : option SlabManager :=
  match c with
  | Acquire => post (acquire s)
  | GiveBack ind => post (give_back ind s)
  | IsSlotEmpty ind => post (is_slot_empty ind s)
  | Clear => post (clear s)
  | Resize n => post (resize n s)
  | Reserve n => post (reserve n s)
  | ResizeToMin => post (resize_to_min s)
  | ShrinkToFit => post (shrink_to_fit s)
  end.

Inductive reachable : SlabManager -> Prop :=
| reach_construct n s :
    is_size_t n -> construct n = Returns tt s -> reachable s
| reach_construct_default s :
    construct_default = Returns tt s -> reachable s
| reach_call c s s' :
    reachable s -> call_ok c -> exec c s = Some s' -> reachable s'.

(** ** Abstract view: the two lists as sequences of indices *)

(** [seg v flag p h l t]: following [next] from [h] visits exactly the slots
    [l], all in bounds and with [is_empty = flag], and ends on [t]; the
    [prev] of the first slot is [p] and the [prev] of every other one is its
    predecessor in [l]. *)
Fixpoint seg (v : list Elem) (flag : bool) (p h : Index) (l : list Index)
    (t : Index) : Prop :=
  match l with
  | [] => h = t
  | i :: l' =>
      h = i /\
      exists e, vget v i = Some e /\ is_empty e = flag /\ prev e = p /\
                seg v flag i (next e) l' t
  end.

(** Every slot of the vector is on the list that matches its flag. *)
Definition cover (v : list Elem) (fl ul : list Index) : Prop :=
  forall i e, vget v i = Some e -> if is_empty e then i ∈ fl else i ∈ ul.

Record Inv (s : SlabManager) (fl ul : list Index) : Prop := {
  inv_size : 1 <= vsize (elem_vec s) <= max_size;
  inv_free : seg (elem_vec s) true NULL_INDEX (empty_head s) fl NULL_INDEX;
  inv_used : seg (elem_vec s) false NULL_INDEX (filled_head s) ul NULL_INDEX;
  inv_free_nodup : NoDup fl;
  inv_used_nodup : NoDup ul;
  inv_cover : cover (elem_vec s) fl ul;
  inv_empty_cnt : empty_cnt s = Z.of_nat (length fl);
  inv_filled_cnt : filled_cnt s = Z.of_nat (length ul)
}.

(** A slot is free when it is in bounds and flagged empty. *)
Definition is_free (v : list Elem) (i : Z) : Prop :=
  is_empty <$> vget v i = Some true.
Definition is_used (v : list Elem) (i : Z) : Prop :=
  is_empty <$> vget v i = Some false.

#[global] Instance is_free_dec v i : Decision (is_free v i).
Proof. unfold is_free. apply _. Defined.
#[global] Instance is_used_dec v i : Decision (is_used v i).
Proof. unfold is_used. apply _. Defined.

(** The reclaimable trailing region: the number of consecutive empty slots
    at the end of the vector. *)
Fixpoint leading_free (l : list Elem) : nat :=
  match l with
  | e :: l' => if is_empty e then S (leading_free l') else O
  | [] => O
  end.

Definition trailing_free (v : list Elem) : Z :=
  Z.of_nat (leading_free (reverse v)).

(** [n] calls of [acquire], collecting the returned indices. *)
Fixpoint acquire_n (n : nat) : M (list Index) :=
  match n with
  | O => ret []
  | S n' => i ← acquire; l ← acquire_n n'; ret (i :: l)
  end.

(** ** Notions used to state the behaviour of [resize] and example states *)

(** What holds when the threading loop reaches index [j]. *)
Definition upsize_inv (s1 : SlabManager) (fl : list Index) (ss n : Z)
    (j : Z) (t : SlabManager) : Prop :=
  filled_head t = filled_head s1 /\
  empty_cnt t = empty_cnt s1 /\
  filled_cnt t = filled_cnt s1 /\
  vsize (elem_vec t) = n /\
  seg (elem_vec t) true NULL_INDEX (empty_head t)
    (reverse (seqZ ss (j - ss)) ++ fl) NULL_INDEX /\
  (forall k, is_empty <$> vget (elem_vec t) k = is_empty <$> vget (elem_vec s1) k) /\
  (forall k, k ∉ fl -> k < ss -> vget (elem_vec t) k = vget (elem_vec s1) k) /\
  (forall k, j <= k -> vget (elem_vec t) k = vget (elem_vec s1) k).

(** The effect of relinking the slots [0 .. i] in front of the list [fl]. *)
Definition relink_post (s1 : SlabManager) (fl : list Index) (l : list Index)
    (t : SlabManager) : Prop :=
  filled_head t = filled_head s1 /\
  filled_cnt t = filled_cnt s1 /\
  vsize (elem_vec t) = vsize (elem_vec s1) /\
  seg (elem_vec t) true NULL_INDEX (empty_head t)
    (filter (is_free (elem_vec s1)) l ++ fl) NULL_INDEX /\
  empty_cnt t = Z.of_nat (length (filter (is_free (elem_vec s1)) l ++ fl)) /\
  (forall k, is_empty <$> vget (elem_vec t) k = is_empty <$> vget (elem_vec s1) k) /\
  (forall k, ~ is_free (elem_vec s1) k -> vget (elem_vec t) k = vget (elem_vec s1) k).

(** [pos] is the highest filled slot of [v]. *)
Definition last_used (v : list Elem) (pos : Z) : Prop :=
  is_used v pos /\ forall j, pos < j < vsize v -> is_free v j.

(** The state an outcome leaves behind, for building example states. *)
Definition state_of {A} (o : outcome A) : SlabManager :=
  match o with
  | Returns _ s => s
  | Throws _ s => s
  | Undefined => uninit
  end.

(** Example states: seven slots; then [0..5] acquired; then [0], [1], [2],
    [3] given back, in that order. *)
Definition fresh7 : SlabManager := Eval vm_compute in state_of (construct 7).

Definition used6 : SlabManager :=
  Eval vm_compute in
  state_of ((acquire;; acquire;; acquire;; acquire;; acquire;; acquire) fresh7).

Definition scattered : SlabManager :=
  Eval vm_compute in
  state_of ((give_back 0;; give_back 1;; give_back 2;; give_back 3) used6).

(** A sequence of calls, each on the state the previous one left. *)
Fixpoint run_calls (cs : list call) (s : SlabManager) : option SlabManager :=
  match cs with
  | [] => Some s
  | c :: cs' => match exec c s with
                | Some s' => run_calls cs' s'
                | None => None
                end
  end.

(** * Proofs *)

(** ** Arithmetic *)

Lemma NULL_INDEX_eq : NULL_INDEX = 18446744073709551615.
Proof. reflexivity. Qed.

Lemma max_size_bounds : 1 <= max_size /\ max_size < 9223372036854775808.
Proof. split; vm_compute; congruence. Qed.

Lemma wrap_id z : 0 <= z < 18446744073709551616 -> wrap z = z.
Proof. intros. unfold wrap. apply Z.mod_small. lia. Qed.

Arguments max_size : simpl never.
Arguments NULL_INDEX : simpl never.
Arguments wrap : simpl never.

(** ** Vector lookups and updates *)

Lemma vget_Some v i e : vget v i = Some e -> 0 <= i < vsize v.
Proof.
  unfold vget, vsize. case_decide; [|done].
  intros Hl%lookup_lt_Some. lia.
Qed.

Lemma vget_lt v i : 0 <= i < vsize v -> exists e, vget v i = Some e.
Proof.
  unfold vget, vsize. intros. rewrite decide_True by lia.
  apply lookup_lt_is_Some. lia.
Qed.

Lemma vget_None v i : ~ (0 <= i < vsize v) -> vget v i = None.
Proof.
  intros. destruct (vget v i) eqn:E; [|done].
  apply vget_Some in E. lia.
Qed.

Lemma vsize_vupd f i v : vsize (vupd f i v) = vsize v.
Proof. unfold vsize, vupd. case_decide; [|done]. by rewrite length_alter. Qed.

Lemma vget_vupd_eq f i v : vget (vupd f i v) i = f <$> vget v i.
Proof.
  unfold vget, vupd. case_decide; [|done]. apply list_lookup_alter_eq.
Qed.

Lemma vget_vupd_ne f i j v : i <> j -> vget (vupd f i v) j = vget v j.
Proof.
  unfold vget, vupd. intros. repeat case_decide; try done.
  apply list_lookup_alter_ne. lia.
Qed.

Lemma vget_vupd f i j v :
  vget (vupd f i v) j = if decide (i = j) then f <$> vget v j else vget v j.
Proof.
  case_decide; [subst; apply vget_vupd_eq | by apply vget_vupd_ne].
Qed.

Lemma vsize_app v w : vsize (v ++ w) = vsize v + vsize w.
Proof. unfold vsize. rewrite length_app. lia. Qed.

Lemma vget_app_l v w i : i < vsize v -> vget (v ++ w) i = vget v i.
Proof.
  unfold vget, vsize. intros. case_decide; [|done].
  apply lookup_app_l. lia.
Qed.

Lemma vget_snoc v e : vget (v ++ [e]) (vsize v) = Some e.
Proof.
  unfold vget, vsize. rewrite decide_True by lia.
  rewrite Nat2Z.id. by rewrite list_lookup_middle.
Qed.

Lemma vsize_vresize n v : 0 <= n -> vsize (vresize n v) = n.
Proof. unfold vsize, vresize. rewrite length_resize. lia. Qed.

Lemma vget_vresize_old n v i :
  i < n -> i < vsize v -> vget (vresize n v) i = vget v i.
Proof.
  unfold vget, vsize, vresize. intros. case_decide; [|done].
  apply lookup_resize; lia.
Qed.

Lemma vget_vresize_new n v i :
  0 <= i -> vsize v <= i < n -> vget (vresize n v) i = Some Elem_default.
Proof.
  unfold vget, vsize, vresize. intros. rewrite decide_True by lia.
  apply lookup_resize_new; lia.
Qed.

Lemma vget_nat v (i : nat) : vget v (Z.of_nat i) = v !! i.
Proof. unfold vget. rewrite decide_True by lia. by rewrite Nat2Z.id. Qed.

Lemma vsize_length v : vsize v = Z.of_nat (length v).
Proof. reflexivity. Qed.

Global Opaque vget vupd vsize vresize.

(** ** Stepping through a member function *)

Lemma bind_eq {A B} (m : M A) (k : A -> M B) s :
  (m ≫= k) s = match m s with
               | Returns a s' => k a s'
               | Throws e s' => Throws e s'
               | Undefined => Undefined
               end.
Proof. reflexivity. Qed.

Lemma write_elem_ok i f s :
  0 <= i < vsize (elem_vec s) ->
  write_elem i f s = Returns tt (set_elem_vec (vupd f i (elem_vec s)) s).
Proof. intros. unfold write_elem. by rewrite decide_True. Qed.

Lemma read_elem_ok i e s :
  vget (elem_vec s) i = Some e -> read_elem i s = Returns e s.
Proof. intros H. unfold read_elem. by rewrite H. Qed.

Lemma step_gets {A B} (f : SlabManager -> A) (k : A -> M B) s :
  (gets f ≫= k) s = k (f s) s.
Proof. reflexivity. Qed.

Lemma step_modify {B} f (k : unit -> M B) s : (modify f ≫= k) s = k tt (f s).
Proof. reflexivity. Qed.

Lemma step_ret {A B} (a : A) (k : A -> M B) s : (ret a ≫= k) s = k a s.
Proof. reflexivity. Qed.

Lemma step_vec_size {B} (k : Z -> M B) s :
  (vec_size ≫= k) s = k (vsize (elem_vec s)) s.
Proof. reflexivity. Qed.

Lemma step_write {B} i f (k : unit -> M B) s :
  0 <= i < vsize (elem_vec s) ->
  (write_elem i f ≫= k) s = k tt (set_elem_vec (vupd f i (elem_vec s)) s).
Proof. intros. by rewrite bind_eq, write_elem_ok. Qed.

Lemma step_read {B} i e (k : Elem -> M B) s :
  vget (elem_vec s) i = Some e -> (read_elem i ≫= k) s = k e s.
Proof. intros. by erewrite bind_eq, read_elem_ok. Qed.

Lemma step_if {A B} (P : Prop) `{Decision P} (m1 m2 : M A) (k : A -> M B) s :
  ((if decide P then m1 else m2) ≫= k) s =
  if decide P then (m1 ≫= k) s else (m2 ≫= k) s.
Proof. by case_decide. Qed.

Lemma set_elem_vec_id s : set_elem_vec (elem_vec s) s = s.
Proof. by destruct s. Qed.

Lemma step_write_if {B} (P : Prop) `{Decision P} i f (k : unit -> M B) s :
  (P -> 0 <= i < vsize (elem_vec s)) ->
  ((if decide P then write_elem i f else ret tt) ≫= k) s =
  k tt (set_elem_vec (if decide P then vupd f i (elem_vec s) else elem_vec s) s).
Proof.
  intros Hb. case_decide.
  - by apply step_write, Hb.
  - by rewrite step_ret, set_elem_vec_id.
Qed.

Lemma vsize_if (P : Prop) `{Decision P} f i v :
  vsize (if decide P then vupd f i v else v) = vsize v.
Proof. case_decide; [apply vsize_vupd|done]. Qed.

Lemma vget_if (P : Prop) `{Decision P} f i j v :
  vget (if decide P then vupd f i v else v) j =
  if decide (P /\ i = j) then f <$> vget v j else vget v j.
Proof.
  destruct (decide P) as [HP|HP].
  - rewrite vget_vupd. repeat case_decide; naive_solver.
  - rewrite decide_False; naive_solver.
Qed.

Lemma step_assoc {A B C} (m : M A) (f : A -> M B) (k : B -> M C) s :
  ((m ≫= f) ≫= k) s = (m ≫= (fun a => f a ≫= k)) s.
Proof. rewrite !bind_eq. by destruct (m s). Qed.

Lemma step_returns {A B} (m : M A) (k : A -> M B) s a s' :
  m s = Returns a s' -> (m ≫= k) s = k a s'.
Proof. intros H. by rewrite bind_eq, H. Qed.

Ltac proj_simpl :=
  unfold set_elem_vec, set_empty_head, set_filled_head, set_empty_cnt,
    set_filled_cnt in *;
  cbn [elem_vec empty_head filled_head empty_cnt filled_cnt
       is_empty prev next with_is_empty with_prev with_next] in *.

Ltac bounds :=
  intros; proj_simpl;
  repeat first [rewrite vsize_vupd | rewrite vsize_if | rewrite vsize_app];
  try change (vsize [_]) with 1; lia.

Ltac mstep :=
  match goal with
  | |- context [mbind ?k (mbind ?f ?m) ?s] => rewrite (step_assoc m f k s)
  | |- context [mbind ?k (gets ?f) ?s] => rewrite (step_gets f k s)
  | |- context [mbind ?k (modify ?f) ?s] => rewrite (step_modify f k s)
  | |- context [mbind ?k (ret ?a) ?s] => rewrite (step_ret a k s)
  | |- context [mbind ?k vec_size ?s] => rewrite (step_vec_size k s)
  | |- context [mbind ?k (write_elem ?i ?f) ?s] =>
      rewrite (step_write i f k s) by bounds
  | |- context [mbind ?k (if decide ?P then write_elem ?i ?f else ret tt) ?s] =>
      rewrite (step_write_if P i f k s) by bounds
  | |- context [mbind ?k (read_elem ?i) ?s] =>
      erewrite (step_read i _ k s) by eassumption
  | |- context [write_elem ?i ?f ?s] => rewrite (write_elem_ok i f s) by bounds
  | |- context [read_elem ?i ?s] => erewrite (read_elem_ok i _ s) by eassumption
  end;
  proj_simpl.

Arguments vget : simpl never.
Arguments vupd : simpl never.
Arguments vsize : simpl never.
Arguments vresize : simpl never.
Arguments write_elem : simpl never.
Arguments read_elem : simpl never.
Arguments vec_resize : simpl never.
Arguments vec_push_back : simpl never.

(** ** Segments *)

Lemma seg_lookup v flag p h l t i :
  seg v flag p h l t -> i ∈ l ->
  exists e, vget v i = Some e /\ is_empty e = flag.
Proof.
  revert p h. induction l as [|a l IH]; intros p h Hs Hi.
  - by apply elem_of_nil in Hi.
  - destruct Hs as (-> & e & He & Hf & _ & Hs).
    apply elem_of_cons in Hi as [->|Hi]; eauto.
Qed.

Lemma seg_ext v v' flag p h l t :
  (forall i, i ∈ l -> vget v' i = vget v i) ->
  seg v flag p h l t -> seg v' flag p h l t.
Proof.
  revert p h. induction l as [|a l IH]; intros p h Hv Hs; [done|].
  destruct Hs as (-> & e & He & Hf & Hp & Hs).
  split; [done|]. exists e. rewrite Hv by left.
  repeat split; try done. apply IH; [|done].
  intros. apply Hv. by right.
Qed.

Lemma seg_head v flag p h i l t : seg v flag p h (i :: l) t -> h = i.
Proof. by intros [-> _]. Qed.

Lemma seg_nil v flag p h t : seg v flag p h [] t -> h = t.
Proof. done. Qed.

Lemma default_last_cons (p a : Index) l :
  default p (last (a :: l)) = default a (last l).
Proof. rewrite last_cons. by destruct (last l). Qed.

Lemma seg_app v flag p h l1 l2 t :
  seg v flag p h (l1 ++ l2) t <->
  exists m, seg v flag p h l1 m /\ seg v flag (default p (last l1)) m l2 t.
Proof.
  revert p h. induction l1 as [|a l1 IH]; intros p h; simpl.
  - split; [eauto|]. by intros (m & -> & ?).
  - split.
    + intros (-> & e & He & Hf & Hp & Hs).
      apply IH in Hs as (m & H1 & H2). exists m. split; [by eauto 10|].
      by rewrite default_last_cons.
    + intros (m & (-> & e & He & Hf & Hp & Hs) & H2).
      split; [done|]. exists e. repeat split; try done.
      apply IH. exists m. split; [done|]. by rewrite default_last_cons in H2.
Qed.

Lemma seg_head_prev v v' flag p p' h l t :
  NoDup l ->
  (forall i, i ∈ l -> i <> h -> vget v' i = vget v i) ->
  (h ∈ l -> vget v' h = with_prev p' <$> vget v h) ->
  seg v flag p h l t -> seg v' flag p' h l t.
Proof.
  destruct l as [|a l]; [done|].
  intros [Ha Hl]%NoDup_cons Hv Hh (-> & e & He & Hf & Hp & Hs).
  split; [done|]. exists (with_prev p' e). rewrite Hh, He by left.
  repeat split; try done.
  eapply seg_ext; [|done]. intros i Hi. apply Hv; [by right|].
  intros ->. done.
Qed.

Lemma seg_last_next v v' flag p h l j t t' :
  NoDup (l ++ [j]) ->
  (forall i, i ∈ l -> vget v' i = vget v i) ->
  vget v' j = with_next t' <$> vget v j ->
  seg v flag p h (l ++ [j]) t -> seg v' flag p h (l ++ [j]) t'.
Proof.
  intros Hnd Hv Hj Hs.
  apply seg_app in Hs as (m & H1 & (-> & e & He & Hf & Hp & Ht)).
  apply seg_app. exists j. split.
  - eapply seg_ext; [|done]. done.
  - split; [done|]. exists (with_next t' e). rewrite Hj, He. done.
Qed.

(** Pushing slot [i] on the head of a list. *)
Lemma seg_push v v' flag h i l :
  NoDup (i :: l) ->
  vget v' i = Some (mkElem flag NULL_INDEX h) ->
  (forall j, j ∈ l -> j <> h -> vget v' j = vget v j) ->
  (h ∈ l -> vget v' h = with_prev i <$> vget v h) ->
  seg v flag NULL_INDEX h l NULL_INDEX ->
  seg v' flag NULL_INDEX i (i :: l) NULL_INDEX.
Proof.
  intros [Hi Hl]%NoDup_cons Hvi Hv Hh Hs.
  split; [done|]. eexists. split; [done|]. repeat split.
  simpl. by eapply seg_head_prev.
Qed.

Lemma seg_not_null v flag p h i l t :
  vsize v <= max_size -> seg v flag p h (i :: l) t -> h <> NULL_INDEX.
Proof.
  intros Hsz (-> & e & He%vget_Some & _).
  pose proof max_size_bounds. rewrite NULL_INDEX_eq. lia.
Qed.





(** The head of a list that ends on [NULL_INDEX] is its first slot, or
    [NULL_INDEX] when the list is empty. *)
Lemma seg_head_cases v flag p h l :
  vsize v <= max_size ->
  seg v flag p h l NULL_INDEX ->
  (h = NULL_INDEX /\ l = []) \/
  (h <> NULL_INDEX /\ 0 <= h < vsize v /\ exists l', l = h :: l').
Proof.
  intros Hsz Hs. destruct l as [|a l]; [by left|right].
  pose proof (seg_not_null _ _ _ _ _ _ _ Hsz Hs).
  destruct Hs as (-> & e & He%vget_Some & _). eauto.
Qed.

Lemma seg_head_bound v flag p h l :
  vsize v <= max_size ->
  seg v flag p h l NULL_INDEX ->
  h <> NULL_INDEX -> 0 <= h < vsize v.
Proof. intros Hsz Hs Hh. destruct (seg_head_cases _ _ _ _ _ Hsz Hs); naive_solver. Qed.

Lemma seg_head_elem v flag p h l :
  vsize v <= max_size ->
  seg v flag p h l NULL_INDEX ->
  h <> NULL_INDEX -> h ∈ l.
Proof.
  intros Hsz Hs Hh. destruct (seg_head_cases _ _ _ _ _ Hsz Hs) as [|(_&_&l'&->)];
    [naive_solver|left].
Qed.

Lemma seg_elem_bound v flag p h l t i :
  seg v flag p h l t -> i ∈ l -> 0 <= i < vsize v.
Proof. intros Hs Hi. destruct (seg_lookup _ _ _ _ _ _ _ Hs Hi) as (e & He%vget_Some & _). done. Qed.

Lemma seg_flag_ne v p1 h1 l1 t1 p2 h2 l2 t2 i j :
  seg v true p1 h1 l1 t1 -> seg v false p2 h2 l2 t2 ->
  i ∈ l1 -> j ∈ l2 -> i <> j.
Proof.
  intros H1 H2 Hi Hj ->.
  destruct (seg_lookup _ _ _ _ _ _ _ H1 Hi) as (e & He & Hf).
  destruct (seg_lookup _ _ _ _ _ _ _ H2 Hj) as (e' & He' & Hf').
  congruence.
Qed.

Lemma seg_disjoint v p1 h1 l1 t1 p2 h2 l2 t2 i :
  seg v true p1 h1 l1 t1 -> seg v false p2 h2 l2 t2 ->
  i ∈ l1 -> i ∈ l2 -> False.
Proof. intros H1 H2 Hi Hj. by eapply seg_flag_ne. Qed.

(** Reading a slot of a vector obtained by a series of writes. *)
Lemma vget_vupd_same f i j v : i = j -> vget (vupd f i v) j = f <$> vget v j.
Proof. intros ->. apply vget_vupd_eq. Qed.

Lemma vget_if_true (P : Prop) `{Decision P} f i j v :
  P /\ i = j -> vget (if decide P then vupd f i v else v) j = f <$> vget v j.
Proof. intros. by rewrite vget_if, decide_True. Qed.

Lemma vget_if_false (P : Prop) `{Decision P} f i j v :
  ~ (P /\ i = j) -> vget (if decide P then vupd f i v else v) j = vget v j.
Proof. intros. by rewrite vget_if, decide_False. Qed.

Lemma vget_snoc_cases v e j :
  vget (v ++ [e]) j = if decide (j = vsize v) then Some e else vget v j.
Proof.
  case_decide as Hj; [subst; apply vget_snoc|].
  destruct (decide (0 <= j < vsize v)).
  - apply vget_app_l. lia.
  - rewrite !vget_None; [done|lia|rewrite vsize_app; unfold vsize at 2; simpl; lia].
Qed.

Lemma vget_snoc_same v e j : j = vsize v -> vget (v ++ [e]) j = Some e.
Proof. intros ->. apply vget_snoc. Qed.

Lemma vget_snoc_ne v e j : j <> vsize v -> vget (v ++ [e]) j = vget v j.
Proof. intros. by rewrite vget_snoc_cases, decide_False. Qed.

(** Deciding each comparison of indices by arithmetic as it appears. *)
Ltac vget_cases :=
  repeat first
    [ rewrite vget_vupd_same by lia
    | rewrite vget_vupd_ne by lia
    | rewrite vget_if_true by lia
    | rewrite vget_if_false by lia
    | rewrite vget_snoc_same by lia
    | rewrite vget_snoc_ne by lia ];
  try done.

(** The same, by equational reasoning alone: [lia] splits on every
    disequality of the context, which does not scale to the proofs about
    [give_back]. *)
Ltac idx_neg :=
  intros [? ?];
  first
    [ congruence
    | match goal with
      | H : _ -> _ <> _ |- _ => exfalso; eapply H; [eassumption|congruence]
      | H : _ -> _ -> _ <> _ |- _ =>
          exfalso; eapply H; [eassumption|eassumption|congruence]
      end ].
Ltac idx :=
  solve [ assumption | congruence | split; [assumption|congruence] | idx_neg ].
Ltac saturate :=
  repeat match goal with
         | H : ?P -> _, HP : ?P |- _ =>
             match type of P with Prop => specialize (H HP) end
         end.
Ltac vget_idx :=
  saturate;
  repeat first
    [ rewrite vget_vupd_same by idx
    | rewrite vget_vupd_ne by idx
    | rewrite vget_if_true by idx
    | rewrite vget_if_false by idx ];
  try done.

(** Splitting on every comparison of indices. *)
Ltac vget_norm :=
  repeat first [rewrite vget_vupd | rewrite vget_if | rewrite vget_snoc_cases].

Lemma nodup_bounded_length (l : list Z) n :
  0 <= n -> NoDup l -> (forall i, i ∈ l -> 0 <= i < n) ->
  Z.of_nat (length l) <= n.
Proof.
  intros Hn Hnd Hb.
  assert (l ⊆+ seqZ 0 n) as Hsub.
  { apply NoDup_submseteq; [done|]. intros i Hi. apply elem_of_seqZ.
    specialize (Hb i Hi). lia. }
  apply submseteq_length in Hsub. rewrite length_seqZ in Hsub. lia.
Qed.

Lemma wrap_length_pred (l : list Z) n :
  Z.of_nat (length l) <= n -> n < 18446744073709551616 ->
  forall a, wrap (Z.of_nat (length (a :: l)) - 1) = Z.of_nat (length l).
Proof. intros. rewrite wrap_id; simpl length; lia. Qed.

Lemma cover_update v v' fl ul fl' ul' i :
  cover v fl ul ->
  (forall j, j <> i -> is_empty <$> vget v' j = is_empty <$> vget v j) ->
  (forall e, vget v' i = Some e -> if is_empty e then i ∈ fl' else i ∈ ul') ->
  (forall j, j <> i -> j ∈ fl -> j ∈ fl') ->
  (forall j, j <> i -> j ∈ ul -> j ∈ ul') ->
  cover v' fl' ul'.
Proof.
  intros Hc Hflag Hi Hfl Hul j e He.
  destruct (decide (j = i)) as [->|Hji]; [by apply Hi|].
  specialize (Hflag j Hji). rewrite He in Hflag.
  destruct (vget v j) as [e0|] eqn:He0; [|done].
  injection Hflag as Hflag. rewrite Hflag.
  specialize (Hc j e0 He0). destruct (is_empty e0); auto.
Qed.

Lemma flag_vupd f i j v :
  (forall e, is_empty (f e) = is_empty e) ->
  is_empty <$> vget (vupd f i v) j = is_empty <$> vget v j.
Proof.
  intros Hf. rewrite vget_vupd. case_decide; [|done].
  destruct (vget v j); simpl; [|done]. by rewrite Hf.
Qed.

Lemma flag_vupd_if (P : Prop) `{Decision P} f i j v :
  (forall e, is_empty (f e) = is_empty e) ->
  is_empty <$> vget (if decide P then vupd f i v else v) j =
  is_empty <$> vget v j.
Proof. intros. case_decide; [by apply flag_vupd|done]. Qed.

Lemma flag_snoc v e j :
  j <> vsize v -> is_empty <$> vget (v ++ [e]) j = is_empty <$> vget v j.
Proof. intros. by rewrite vget_snoc_ne. Qed.

(** Writes to [prev] and [next] leave every flag as it is. *)
Ltac flag_frame :=
  intros;
  repeat first
    [ rewrite vget_vupd_ne by idx
    | rewrite flag_vupd by done
    | rewrite flag_vupd_if by done
    | rewrite flag_snoc by lia ];
  try done.

Ltac flag_same :=
  intros; vget_norm; repeat case_decide; try (exfalso; lia);
  by match goal with |- context [vget ?v ?j] => destruct (vget v j) end.

Lemma vsize_snoc v e : vsize (v ++ [e]) = vsize v + 1.
Proof. by rewrite vsize_app. Qed.

Lemma step_push_back {B} e (k : unit -> M B) s :
  vsize (elem_vec s) < max_size ->
  (vec_push_back e ≫= k) s = k tt (set_elem_vec (elem_vec s ++ [e]) s).
Proof. intros. rewrite bind_eq. unfold vec_push_back. by rewrite decide_False by lia. Qed.

(** ** [acquire] *)

Lemma acquire_pop s i fl ul :
  Inv s (i :: fl) ul ->
  exists s', acquire s = Returns i s' /\ Inv s' fl (i :: ul) /\
             vsize (elem_vec s') = vsize (elem_vec s) /\
             (forall j, j <> i -> is_empty <$> vget (elem_vec s') j =
                                  is_empty <$> vget (elem_vec s) j) /\
             (forall e, vget (elem_vec s) i = Some e -> empty_head s' = next e).
Proof.
  intros [Hsz Hf Hu Hfn Hun Hc Hec Hfc].
  pose proof Hf as (Hh & e & He & Hfl & Hp & Hf').
  pose proof (vget_Some _ _ _ He) as Hib.
  pose proof max_size_bounds as Hms. pose proof NULL_INDEX_eq as HN.
  pose proof (seg_head_bound _ _ _ _ _ (proj2 Hsz) Hf') as Hnb.
  pose proof (seg_head_bound _ _ _ _ _ (proj2 Hsz) Hu) as Hfb.
  pose proof (seg_head_elem _ _ _ _ _ (proj2 Hsz) Hf') as Hne.
  pose proof (seg_head_elem _ _ _ _ _ (proj2 Hsz) Hu) as Hfe.
  pose proof (fun j => seg_elem_bound _ _ _ _ _ _ j Hf') as Hflb.
  pose proof (fun j => seg_elem_bound _ _ _ _ _ _ j Hu) as Hulb.
  pose proof Hfn as [Hi Hfn']%NoDup_cons.
  assert (forall j, j ∈ fl -> j <> i) as Hfl_i by (by intros j ? ->).
  assert (forall j, j ∈ ul -> j <> i) as Hul_i.
  { intros j Hj. eapply not_eq_sym, seg_flag_ne; [apply Hf|apply Hu|left|done]. }
  assert (forall j k, j ∈ fl -> k ∈ ul -> j <> k) as Hfu.
  { intros j k Hj Hk. eapply seg_flag_ne; [apply Hf|apply Hu|by right|done]. }
  unfold acquire. mstep. rewrite decide_True by lia.
  rewrite Hh. repeat mstep. unfold ret.
  eexists. split; [done|].
  set (fh := filled_head s) in *. set (ne := next e) in *.
  set (v := elem_vec s) in *.
  assert (fh <> NULL_INDEX -> fh <> i) as Hfi by auto.
  assert (ne <> NULL_INDEX -> ne <> i) as Hni by auto.
  assert (ne <> NULL_INDEX -> fh <> NULL_INDEX -> ne <> fh) as Hnf by auto.
  split; [split|split; [|split]]; proj_simpl.
  - bounds.
  - eapply seg_head_prev; [done| | |apply Hf'].
    + intros j Hj Hjn. specialize (Hfl_i j Hj).
      assert (fh <> NULL_INDEX -> j <> fh) by auto.
      vget_cases.
    + intros Hj. specialize (Hflb _ Hj). vget_cases.
  - eapply seg_push; [by apply NoDup_cons; split; [intros ?%Hul_i|]| | | |apply Hu].
    + vget_cases. by rewrite He.
    + intros j Hj Hjn. specialize (Hul_i j Hj).
      assert (ne <> NULL_INDEX -> ne <> j) by auto.
      vget_cases.
    + intros Hj. specialize (Hulb _ Hj). vget_cases.
  - done.
  - by apply NoDup_cons; split; [intros ?%Hul_i|].
  - eapply (cover_update _ _ _ _ _ _ i); [apply Hc|flag_same| | |].
    + intros e'. vget_cases. rewrite He. intros [= <-]. left.
    + intros j Hj [|]%elem_of_cons; done.
    + intros j Hj ?. by right.
  - rewrite Hec. apply wrap_length_pred with (n := vsize v); [|lia].
    apply nodup_bounded_length; [lia|done..].
  - rewrite Hfc. simpl length. rewrite wrap_id; [lia|].
    pose proof (nodup_bounded_length ul (vsize v) ltac:(lia) Hun Hulb). lia.
  - bounds.
  - flag_same.
  - intros e0 He0. rewrite He in He0. by injection He0 as <-.
Qed.

Lemma acquire_grow s ul :
  Inv s [] ul -> vsize (elem_vec s) < max_size ->
  exists s', acquire s = Returns (vsize (elem_vec s)) s' /\
             Inv s' [] (vsize (elem_vec s) :: ul) /\
             vsize (elem_vec s') = vsize (elem_vec s) + 1 /\
             (forall j, j <> vsize (elem_vec s) ->
                        is_empty <$> vget (elem_vec s') j =
                        is_empty <$> vget (elem_vec s) j).
Proof.
  intros [Hsz Hf Hu Hfn Hun Hc Hec Hfc] Hlt. simpl in Hf.
  pose proof max_size_bounds as Hms. pose proof NULL_INDEX_eq as HN.
  pose proof (seg_head_bound _ _ _ _ _ (proj2 Hsz) Hu) as Hfb.
  pose proof (seg_head_elem _ _ _ _ _ (proj2 Hsz) Hu) as Hfe.
  pose proof (fun j => seg_elem_bound _ _ _ _ _ _ j Hu) as Hulb.
  unfold acquire. mstep. rewrite decide_False by (rewrite Hf; tauto).
  mstep. rewrite step_push_back by done. proj_simpl.
  repeat mstep. unfold ret.
  eexists. split; [done|].
  set (fh := filled_head s) in *. set (v := elem_vec s) in *.
  set (rv := vsize v) in *.
  assert (forall j, j ∈ ul -> j <> rv) as Hul_i.
  { intros j Hj. specialize (Hulb j Hj). lia. }
  split; [split|split]; proj_simpl.
  - bounds.
  - done.
  - eapply seg_push; [by apply NoDup_cons; split; [intros ?%Hul_i|]| | | |apply Hu].
    + vget_cases.
    + intros j Hj Hjn. specialize (Hul_i j Hj). vget_cases.
    + intros Hj. specialize (Hulb _ Hj). vget_cases.
  - done.
  - by apply NoDup_cons; split; [intros ?%Hul_i|].
  - eapply (cover_update _ _ _ _ _ _ rv); [apply Hc| | |done|].
    + intros. vget_norm.
      repeat case_decide; try (exfalso; lia); by destruct (vget v j).
    + intros e'. vget_cases.
      intros [= <-]. left.
    + intros j Hj ?. by right.
  - done.
  - rewrite Hfc. simpl length. rewrite wrap_id; [lia|].
    pose proof (nodup_bounded_length ul (vsize v) ltac:(lia) Hun Hulb). lia.
  - bounds.
  - intros. vget_norm.
    repeat case_decide; try (exfalso; lia); by destruct (vget v j).
Qed.

Lemma bound_not_null v j :
  vsize v <= max_size -> 0 <= j < vsize v -> j <> NULL_INDEX.
Proof. pose proof max_size_bounds. rewrite NULL_INDEX_eq. lia. Qed.

(** ** [is_slot_empty] and [give_back] *)

Lemma is_slot_empty_in s ind e :
  vget (elem_vec s) ind = Some e -> is_slot_empty ind s = Returns (is_empty e) s.
Proof.
  intros He. pose proof (vget_Some _ _ _ He).
  unfold is_slot_empty. mstep. rewrite decide_False by lia.
  by mstep.
Qed.

Lemma is_slot_empty_out s ind :
  vsize (elem_vec s) <= ind -> is_slot_empty ind s = Throws out_of_range s.
Proof.
  intros. unfold is_slot_empty. mstep. by rewrite decide_True by lia.
Qed.

Lemma give_back_free s ind e :
  vget (elem_vec s) ind = Some e -> is_empty e = true ->
  give_back ind s = Throws logic_error s.
Proof.
  intros He Hf. unfold give_back.
  rewrite bind_eq, (is_slot_empty_in _ _ _ He), Hf. done.
Qed.

Lemma give_back_out s ind :
  vsize (elem_vec s) <= ind -> give_back ind s = Throws out_of_range s.
Proof.
  intros. unfold give_back. by rewrite bind_eq, is_slot_empty_out.
Qed.

Lemma give_back_used s i fl l1 l2 :
  Inv s fl (l1 ++ i :: l2) ->
  exists s', give_back i s = Returns tt s' /\
             Inv s' (i :: fl) (l1 ++ l2) /\
             vsize (elem_vec s') = vsize (elem_vec s) /\
             (forall j, j <> i -> is_empty <$> vget (elem_vec s') j =
                                  is_empty <$> vget (elem_vec s) j).
Proof.
  intros [Hsz Hf Hu Hfn Hun Hc Hec Hfc].
  pose proof max_size_bounds as Hms. pose proof NULL_INDEX_eq as HN.
  pose proof Hu as (m & H1 & (-> & e & He & Hfl & Hp & H3))%seg_app.
  pose proof (vget_Some _ _ _ He) as Hib.
  pose proof (seg_head_bound _ _ _ _ _ (proj2 Hsz) Hf) as Heb.
  pose proof (seg_head_elem _ _ _ _ _ (proj2 Hsz) Hf) as Hee.
  pose proof (seg_head_bound _ _ _ _ _ (proj2 Hsz) H3) as Hnb.
  pose proof (seg_head_elem _ _ _ _ _ (proj2 Hsz) H3) as Hne.
  pose proof (fun j => seg_elem_bound _ _ _ _ _ _ j Hf) as Hflb.
  pose proof (fun j => seg_elem_bound _ _ _ _ _ _ j Hu) as Hulb.
  pose proof Hun as (Hn1 & Hn12 & (Hi2 & Hn2)%NoDup_cons)%NoDup_app.
  assert (forall j, j ∈ l1 -> j <> i) as Hl1_i.
  { intros j Hj ->. apply (Hn12 _ Hj). left. }
  assert (forall j, j ∈ l2 -> j <> i) as Hl2_i by (by intros j ? ->).
  assert (forall j k, j ∈ l1 -> k ∈ l2 -> j <> k) as Hl12.
  { intros j k Hj Hk ->. apply (Hn12 _ Hj). by right. }
  assert (forall j k, j ∈ fl -> k ∈ l1 ++ i :: l2 -> j <> k) as Hfu.
  { intros j k Hj Hk. eapply seg_flag_ne; [apply Hf|apply Hu|done..]. }
  assert (forall j, j ∈ fl -> j <> i) as Hfl_i.
  { intros j Hj. apply (Hfu _ _ Hj). set_solver. }
  assert (NoDup (l1 ++ l2)) as Hn'.
  { apply NoDup_app. split_and!; [done| |done]. intros j Hj Hj2. by eapply Hl12. }
  unfold give_back.
  rewrite bind_eq, (is_slot_empty_in _ _ _ He), Hfl.
  repeat mstep.
  assert (empty_head s <> NULL_INDEX -> empty_head s <> i) as Hei by auto.
  assert (next e <> NULL_INDEX -> next e <> i) as Hni by auto.
  assert (forall k, empty_head s <> NULL_INDEX -> k ∈ l1 ++ i :: l2 ->
                    empty_head s <> k) as Hek by auto.
  assert (next e <> NULL_INDEX -> empty_head s <> NULL_INDEX ->
          empty_head s <> next e) as Hen.
  { intros ??. apply Hek; [done|]. set_solver. }
  destruct l1 as [|a l1 _] using rev_ind.
  - (* [i] is the head of the filled list *)
    simpl in H1, Hp.
    rewrite step_if, decide_False by (rewrite Hp; tauto).
    repeat mstep. unfold modify.
    eexists. split; [done|]. simpl app.
    set (eh := empty_head s) in *. set (nx := next e) in *.
    set (v := elem_vec s) in *.
    split; [split|split]; proj_simpl.
    + bounds.
    + eapply seg_push; [by apply NoDup_cons; split; [intros ?%Hfl_i|]| | | |apply Hf].
      * vget_idx. by rewrite He.
      * intros j Hj Hjn. specialize (Hfl_i j Hj).
        assert (nx <> NULL_INDEX -> nx <> j).
        { intros ? ->. eapply Hfu; [done| |done]. set_solver. }
        vget_idx.
      * intros Hj. pose proof (bound_not_null _ _ (proj2 Hsz) (Hflb _ Hj)). vget_idx.
    + eapply seg_head_prev; [done| | |apply H3].
      * intros j Hj Hjn. specialize (Hl2_i j Hj).
        assert (eh <> NULL_INDEX -> eh <> j).
        { intros ?. apply Hek; [done|]. set_solver. }
        vget_idx.
      * intros Hj. pose proof (bound_not_null _ _ (proj2 Hsz) (Hulb nx ltac:(set_solver))).
        vget_idx. by rewrite Hp.
    + by apply NoDup_cons; split; [intros ?%Hfl_i|].
    + done.
    + eapply (cover_update _ _ _ _ _ _ i); [apply Hc|flag_frame| | |].
      * intros e'. vget_idx. rewrite He. intros [= <-]. left.
      * intros j Hj ?. by right.
      * intros j Hj [|]%elem_of_cons; done.
    + rewrite Hec. simpl length. rewrite wrap_id; [lia|].
      pose proof (nodup_bounded_length fl (vsize v) ltac:(lia) Hfn Hflb). lia.
    + rewrite Hfc. apply wrap_length_pred with (n := vsize v); [|lia].
      apply nodup_bounded_length; [lia|done|]. intros j Hj. apply Hulb. by right.
    + bounds.
    + flag_frame.
  - (* [i] follows [a] in the filled list *)
    rewrite last_snoc in Hp. simpl in Hp.
    assert (a ∈ l1 ++ [a]) as Ha by set_solver.
    pose proof (Hulb a ltac:(set_solver)) as Hab.
    pose proof (Hl1_i a Ha) as Hai.
    rewrite step_if, decide_True by lia.
    repeat mstep. unfold modify.
    eexists. split; [done|].
    set (eh := empty_head s) in *. set (nx := next e) in *.
    set (v := elem_vec s) in *. set (pr := prev e) in *.
    assert (nx <> NULL_INDEX -> nx <> a).
    { intros ? ->. eapply Hl12; [apply Ha|by apply Hne|done]. }
    assert (eh <> NULL_INDEX -> eh <> a).
    { intros ?. apply Hek; [done|]. set_solver. }
    split; [split|split]; proj_simpl.
    + bounds.
    + eapply seg_push; [by apply NoDup_cons; split; [intros ?%Hfl_i|]| | | |apply Hf].
      * vget_idx. by rewrite He.
      * intros j Hj Hjn. specialize (Hfl_i j Hj).
        assert (nx <> NULL_INDEX -> nx <> j).
        { intros ? ->. eapply Hfu; [done| |done]. set_solver. }
        assert (pr <> j).
        { intros ->. eapply Hfu; [done| |done]. set_solver. }
        vget_idx.
      * intros Hj. pose proof (bound_not_null _ _ (proj2 Hsz) (Hflb _ Hj)). vget_idx.
    + apply seg_app. exists nx. split.
      * eapply seg_last_next; [done| | |apply H1].
        -- intros j Hj.
           assert (j <> a).
           { intros ->. apply NoDup_app in Hn1 as (_ & Hn1 & _).
             apply (Hn1 _ Hj). left. }
           assert (j <> i) by (apply Hl1_i; set_solver).
           assert (nx <> NULL_INDEX -> nx <> j).
           { intros ? ->. eapply Hl12; [|by apply Hne|done]. set_solver. }
           assert (eh <> NULL_INDEX -> eh <> j).
           { intros ?. apply Hek; [done|]. set_solver. }
           vget_idx.
        -- subst pr. rewrite Hp. vget_idx.
      * rewrite last_snoc. simpl.
        eapply seg_head_prev; [done| | |apply H3].
        -- intros j Hj Hjn. specialize (Hl2_i j Hj).
           assert (eh <> NULL_INDEX -> eh <> j).
           { intros ?. apply Hek; [done|]. set_solver. }
           assert (pr <> j).
           { subst pr. rewrite Hp. eapply Hl12; [apply Ha|done]. }
           vget_idx.
        -- intros Hj. pose proof (bound_not_null _ _ (proj2 Hsz) (Hulb nx ltac:(set_solver))).
           subst pr. rewrite Hp. vget_idx.
    + by apply NoDup_cons; split; [intros ?%Hfl_i|].
    + done.
    + eapply (cover_update _ _ _ _ _ _ i); [apply Hc|flag_frame| | |].
      * intros e'. subst pr. rewrite Hp. vget_idx. rewrite He. intros [= <-]. left.
      * intros j Hj ?. by right.
      * intros j Hj. set_solver.
    + rewrite Hec. simpl length. rewrite wrap_id; [lia|].
      pose proof (nodup_bounded_length fl (vsize v) ltac:(lia) Hfn Hflb). lia.
    + rewrite Hfc. rewrite !length_app. simpl length. rewrite wrap_id; [lia|].
      pose proof (nodup_bounded_length _ (vsize v) ltac:(lia) Hun Hulb) as Hlen.
      rewrite ?length_app in Hlen. simpl length in Hlen.
      rewrite ?length_app in Hlen. simpl length in Hlen. lia.
    + bounds.
    + flag_frame.
Qed.

(** ** Loops *)

(** The invariant rule of the counting loop. *)
Lemma for_range_inv (P : Z -> SlabManager -> Prop) a b body s :
  0 <= a <= b -> b < 18446744073709551616 ->
  P a s ->
  (forall j t, a <= j < b -> P j t ->
               exists t', body j t = Returns tt t' /\ P (j + 1) t') ->
  exists s', for_range a b body s = Returns tt s' /\ P b s'.
Proof.
  unfold for_range. intros Hab Hb HP Hbody.
  remember (Z.to_nat (b - a)) as k eqn:Hk.
  revert a s Hab HP Hk Hbody. induction k as [|k IH]; intros a s Hab HP Hk Hbody.
  - assert (a = b) as -> by lia. eauto.
  - destruct (Hbody a s ltac:(lia) HP) as (t' & Ht' & HP').
    simpl. rewrite (step_returns _ _ _ _ _ Ht').
    rewrite wrap_id by lia.
    apply IH; [lia|done|lia|].
    intros j t Hj. apply Hbody. lia.
Qed.

(** A run of consecutive slots linked in ascending order. *)
Lemma seg_range v flag p a k t :
  (forall j, a <= j < a + Z.of_nat (S k) ->
     exists e, vget v j = Some e /\ is_empty e = flag /\
               prev e = (if decide (j = a) then p else j - 1) /\
               next e = (if decide (j = a + Z.of_nat k) then t else j + 1)) ->
  seg v flag p a (seqZ a (Z.of_nat (S k))) t.
Proof.
  revert a p. induction k as [|k IH]; intros a p H.
  - destruct (H a ltac:(lia)) as (e & He & Hf & Hp & Hn).
    rewrite decide_True in Hp by lia. rewrite decide_True in Hn by lia.
    rewrite seqZ_cons by lia. replace (Z.pred (Z.of_nat 1)) with 0 by lia.
    split; [done|]. by exists e.
  - destruct (H a ltac:(lia)) as (e & He & Hf & Hp & Hn).
    rewrite decide_True in Hp by lia. rewrite decide_False in Hn by lia.
    rewrite seqZ_cons by lia. split; [done|]. exists e. split_and!; [done..|].
    rewrite Hn. replace (Z.succ a) with (a + 1) by lia.
    replace (Z.pred (Z.of_nat (S (S k)))) with (Z.of_nat (S k)) by lia.
    apply IH. intros j Hj.
    destruct (H j ltac:(lia)) as (e' & He' & Hf' & Hp' & Hn').
    exists e'. split_and!; [done..| |].
    + rewrite Hp'. repeat case_decide; lia.
    + rewrite Hn'. repeat case_decide; lia.
Qed.

(** ** [initialize] *)

Lemma initialize_loop s n :
  vsize (elem_vec s) = n -> 2 <= n <= max_size ->
  exists s',
    for_range 1 (wrap (n - 1)) (fun i =>
      write_elem i (with_is_empty true);;
      write_elem i (with_prev (wrap (i - 1)));;
      write_elem i (with_next (wrap (i + 1)))) s = Returns tt s' /\
    (fun j t => exists v', t = set_elem_vec v' s /\ vsize v' = n /\
       (forall k, 1 <= k < j -> vget v' k = Some (mkElem true (k - 1) (k + 1))) /\
       (forall k, ~ (1 <= k < j) -> vget v' k = vget (elem_vec s) k))
      (wrap (n - 1)) s'.
Proof.
  intros Hn Hsz. pose proof max_size_bounds as Hms.
  apply for_range_inv.
  - rewrite wrap_id by lia. lia.
  - rewrite wrap_id by lia. lia.
  - exists (elem_vec s). rewrite set_elem_vec_id. split_and!; [done..|lia|done].
  - intros j t Hj (v' & -> & Hv' & Hin & Hout). rewrite wrap_id in Hj by lia.
    repeat mstep. eexists. split; [reflexivity|].
    eexists. split; [reflexivity|]. split; [bounds|]. split.
    + intros k Hk. destruct (decide (k = j)) as [->|Hkj].
      * destruct (vget_lt v' j ltac:(lia)) as (e & He).
        vget_cases. rewrite He. simpl. by rewrite !wrap_id by lia.
      * vget_cases. apply Hin. lia.
    + intros k Hk. vget_cases. apply Hout. lia.
Qed.

Lemma initialize_spec s n :
  vsize (elem_vec s) = n -> 1 <= n <= max_size ->
  exists s', initialize n s = Returns tt s' /\ Inv s' (seqZ 0 n) [] /\
             vsize (elem_vec s') = n.
Proof.
  intros Hn Hsz.
  pose proof max_size_bounds as Hms. pose proof NULL_INDEX_eq as HN.
  assert (forall v', vsize v' = n ->
    (forall j, 0 <= j < n ->
       exists e, vget v' j = Some e /\ is_empty e = true /\
                 prev e = (if decide (j = 0) then NULL_INDEX else j - 1) /\
                 next e = (if decide (j = 0 + Z.of_nat (Z.to_nat (n - 1)))
                           then NULL_INDEX else j + 1)) ->
    Inv (mkSlab 0 NULL_INDEX n 0 v') (seqZ 0 n) [] /\ vsize v' = n) as Hfin.
  { intros v' Hv' Hall. split; [split; proj_simpl|done].
    - lia.
    - replace n with (Z.of_nat (S (Z.to_nat (n - 1)))) at 1 by lia.
      apply seg_range. intros j Hj. apply Hall. lia.
    - done.
    - apply NoDup_seqZ.
    - apply NoDup_nil_2.
    - intros j e He. pose proof (vget_Some _ _ _ He).
      destruct (Hall j ltac:(lia)) as (e' & He' & Hfl & _). simplify_eq.
      rewrite Hfl. apply elem_of_seqZ. lia.
    - rewrite length_seqZ. lia.
    - done. }
  unfold initialize. do 2 mstep.
  destruct (decide (1 < n)) as [Hn1|Hn1].
  - repeat mstep.
    match goal with
    | |- context [mbind _ (for_range _ _ _) ?s1] =>
        destruct (initialize_loop s1 n) as (s2 & Hs2 & v2 & -> & Hv2 & Hin & Hout);
        [bounds|lia|]
    end.
    rewrite (step_returns _ _ _ _ _ Hs2). rewrite wrap_id in * by lia.
    proj_simpl. repeat mstep. unfold modify. proj_simpl.
    eexists. split; [done|]. apply Hfin; [bounds|].
    intros j Hj. replace (0 + Z.of_nat (Z.to_nat (n - 1))) with (n - 1) by lia.
    proj_simpl.
    destruct (decide (j = n - 1)) as [->|Hjn].
    + destruct (vget_lt v2 (n - 1) ltac:(lia)) as (e & He).
      vget_cases. rewrite He. eexists. split; [done|]. simpl.
      rewrite ?wrap_id by lia. repeat case_decide; split_and!; first [done|lia].
    + vget_cases. destruct (decide (j = 0)) as [->|Hj0].
      * rewrite Hout by lia. proj_simpl.
        destruct (vget_lt (elem_vec s) 0 ltac:(lia)) as (e & He).
        vget_cases. rewrite He. eexists. split; [done|]. simpl.
        repeat case_decide; split_and!; first [done|lia].
      * rewrite Hin by lia. eexists. split; [done|]. simpl.
        repeat case_decide; split_and!; first [done|lia].
  - assert (n = 1) as -> by lia.
    repeat mstep. unfold modify. proj_simpl.
    eexists. split; [done|]. apply Hfin; [bounds|].
    intros j Hj. assert (j = 0) as -> by lia. proj_simpl.
    destruct (vget_lt (elem_vec s) 0 ltac:(lia)) as (e & He).
    vget_cases. rewrite He. eexists. split; [done|]. simpl.
    repeat case_decide; split_and!; first [done|lia].
Qed.

(** ** Constructors *)

Lemma vsize_nil : vsize [] = 0.
Proof. reflexivity. Qed.

Lemma step_vec_resize {B} n (k : unit -> M B) s :
  n <= max_size ->
  (vec_resize n ≫= k) s = k tt (set_elem_vec (vresize n (elem_vec s)) s).
Proof.
  intros. rewrite bind_eq. unfold vec_resize. by rewrite decide_False by lia.
Qed.

Lemma construct_spec n :
  let n' := if decide (0 < n) then n else 1 in
  n' <= max_size ->
  exists s, construct n = Returns tt s /\ Inv s (seqZ 0 n') [] /\
            vsize (elem_vec s) = n'.
Proof.
  intros n' Hn. unfold construct. fold n'.
  assert (1 <= n') by (subst n'; case_decide; lia).
  rewrite step_vec_resize by done.
  apply initialize_spec; [|lia]. proj_simpl. apply vsize_vresize. lia.
Qed.

Lemma construct_default_spec :
  exists s, construct_default = Returns tt s /\ Inv s (seqZ 0 1) [] /\
            vsize (elem_vec s) = 1.
Proof.
  pose proof max_size_bounds.
  unfold construct_default. rewrite step_vec_resize by lia.
  apply initialize_spec; [|lia]. proj_simpl. by apply vsize_vresize.
Qed.

(** ** [resize], growing *)

Lemma upsize_loop s1 fl ss n :
  vsize (elem_vec s1) = n -> 1 <= ss <= n -> n <= max_size ->
  seg (elem_vec s1) true NULL_INDEX (empty_head s1) fl NULL_INDEX ->
  NoDup fl -> (forall k, k ∈ fl -> k < ss) ->
  (forall k, ss <= k < n -> vget (elem_vec s1) k = Some Elem_default) ->
  exists s',
    for_range ss n (fun i =>
      write_elem i (with_prev NULL_INDEX);;
      eh ← gets empty_head;
      write_elem i (with_next eh);;
      eh ← gets empty_head;
      (if decide (eh <> NULL_INDEX) then write_elem eh (with_prev i) else ret tt);;
      modify (set_empty_head i)) s1 = Returns tt s' /\
    upsize_inv s1 fl ss n n s'.
Proof.
  intros Hn Hss Hmax Hseg Hnd Hfl Hnew.
  pose proof max_size_bounds as Hms. pose proof NULL_INDEX_eq as HN.
  apply (for_range_inv (upsize_inv s1 fl ss n)); [lia|lia| |].
  - unfold upsize_inv. replace (ss - ss) with 0 by lia. simpl.
    split_and!; done.
  - intros j t Hj (Hfh & Hec & Hfc & Hsz & Hs & Hflag & Hframe & Hrest).
    set (L := reverse (seqZ ss (j - ss)) ++ fl) in *.
    assert (forall k, k ∈ L -> 0 <= k < j) as HL.
    { intros k [Hk|Hk]%elem_of_app.
      - apply elem_of_reverse, elem_of_seqZ in Hk. lia.
      - pose proof (seg_elem_bound _ _ _ _ _ _ _ Hseg Hk). specialize (Hfl k Hk). lia. }
    assert (NoDup L) as HLnd.
    { apply NoDup_app. split_and!; [rewrite reverse_Permutation; apply NoDup_seqZ| |done].
      intros k Hk%elem_of_reverse%elem_of_seqZ Hk'%Hfl. lia. }
    assert (reverse (seqZ ss (j + 1 - ss)) ++ fl = j :: L) as HL'.
    { subst L. replace (j + 1 - ss) with (Z.of_nat (S (Z.to_nat (j - ss)))) by lia.
      rewrite seqZ_S, reverse_snoc. simpl.
      replace (Z.of_nat (Z.to_nat (j - ss))) with (j - ss) by lia.
      by replace (ss + (j - ss)) with j by lia. }
    assert (vsize (elem_vec t) <= max_size) as Hszt by lia.
    pose proof (seg_head_cases _ _ _ _ _ Hszt Hs) as Hh.
    assert (empty_head t <> NULL_INDEX -> 0 <= empty_head t < j) as Hehb.
    { intros ?. destruct Hh as [[? _]|(_ & _ & l' & Hl')]; [done|].
      apply HL. rewrite Hl'. left. }
    assert (empty_head t <> NULL_INDEX -> empty_head t ∈ L) as Hehe.
    { intros ?. destruct Hh as [[? _]|(_ & _ & l' & Hl')]; [done|].
      rewrite Hl'. left. }
    assert (vget (elem_vec t) j = Some Elem_default) as Hj0.
    { rewrite Hrest by lia. apply Hnew. lia. }
    repeat mstep. unfold modify. proj_simpl.
    eexists. split; [reflexivity|].
    unfold upsize_inv. proj_simpl. rewrite HL'.
    split_and!; try done.
    + bounds.
    + eapply seg_push; [by apply NoDup_cons; split; [intros ?%HL; lia|]| | | |apply Hs].
      * vget_cases. by rewrite Hj0.
      * intros k Hk Hkh. specialize (HL k Hk). vget_cases.
      * intros Hk. specialize (HL _ Hk). vget_cases.
    + intros k. rewrite <- Hflag. flag_frame.
    + intros k Hk Hks. rewrite <- Hframe by done.
      assert (empty_head t <> NULL_INDEX -> empty_head t <> k).
      { intros Hne Heq. specialize (Hehe Hne). rewrite Heq in Hehe.
        apply elem_of_app in Hehe as [He|He].
        - apply elem_of_reverse, elem_of_seqZ in He. lia.
        - done. }
      vget_cases.
    + intros k Hk. rewrite <- Hrest by lia. vget_cases.
Qed.

Lemma resize_up s fl ul n :
  Inv s fl ul -> vsize (elem_vec s) < n <= max_size ->
  exists s', resize n s = Returns tt s' /\
    Inv s' (reverse (seqZ (vsize (elem_vec s)) (n - vsize (elem_vec s))) ++ fl) ul /\
    vsize (elem_vec s') = n /\
    filled_head s' = filled_head s /\
    (forall k, k < vsize (elem_vec s) ->
       is_empty <$> vget (elem_vec s') k = is_empty <$> vget (elem_vec s) k) /\
    (forall k, k ∈ ul -> vget (elem_vec s') k = vget (elem_vec s) k).
Proof.
  intros [Hsz Hf Hu Hfn Hun Hc Hec Hfc] Hn.
  pose proof max_size_bounds as Hms. pose proof NULL_INDEX_eq as HN.
  pose proof (fun j => seg_elem_bound _ _ _ _ _ _ j Hf) as Hflb.
  pose proof (fun j => seg_elem_bound _ _ _ _ _ _ j Hu) as Hulb.
  set (ss := vsize (elem_vec s)) in *.
  assert (forall k, k < ss -> vget (vresize n (elem_vec s)) k = vget (elem_vec s) k)
    as Hold.
  { intros k Hk. apply vget_vresize_old; lia. }
  unfold resize. mstep. fold ss.
  rewrite decide_False by lia. rewrite decide_True by lia.
  rewrite step_vec_resize by lia. proj_simpl.
  match goal with
  | |- context [mbind _ (for_range _ _ _) ?s1] =>
      destruct (upsize_loop s1 fl ss n) as
        (s2 & Hs2 & Hfh2 & Hec2 & Hfc2 & Hsz2 & Hseg2 & Hflag2 & Hframe2 & _)
  end.
  { proj_simpl. apply vsize_vresize. lia. }
  { lia. }
  { lia. }
  { proj_simpl. eapply seg_ext; [|apply Hf]. intros k Hk. apply Hold, Hflb, Hk. }
  { done. }
  { intros k Hk. apply Hflb, Hk. }
  { intros k Hk. proj_simpl. apply vget_vresize_new; lia. }
  rewrite (step_returns _ _ _ _ _ Hs2). mstep. unfold modify.
  proj_simpl. eexists. split; [reflexivity|].
  assert (forall k, k ∈ ul -> vget (elem_vec s2) k = vget (elem_vec s) k) as Hul2.
  { intros k Hk. pose proof (Hulb k Hk).
    rewrite Hframe2; [apply Hold; lia| |lia].
    intros Hk'. eapply seg_disjoint; [apply Hf|apply Hu|done..]. }
  split_and!; [split; proj_simpl|..]; proj_simpl.
  - lia.
  - done.
  - rewrite Hfh2. by eapply seg_ext; [|apply Hu].
  - apply NoDup_app. split_and!; [rewrite reverse_Permutation; apply NoDup_seqZ| |done].
    intros k Hk%elem_of_reverse%elem_of_seqZ Hk'%Hflb. lia.
  - done.
  - intros k e He. pose proof (vget_Some _ _ _ He) as Hkb.
    specialize (Hflag2 k). rewrite He in Hflag2. simpl in Hflag2.
    destruct (decide (k < ss)) as [Hk|Hk].
    + rewrite Hold in Hflag2 by done.
      destruct (vget (elem_vec s) k) as [e0|] eqn:He0; [|done].
      injection Hflag2 as ->. specialize (Hc k e0 He0).
      destruct (is_empty e0); [|done]. apply elem_of_app. by right.
    + rewrite vget_vresize_new in Hflag2 by lia. injection Hflag2 as ->.
      apply elem_of_app. left. apply elem_of_reverse, elem_of_seqZ. lia.
  - rewrite Hec2, Hec, length_app, length_reverse, length_seqZ.
    pose proof (nodup_bounded_length fl ss ltac:(lia) Hfn Hflb).
    rewrite (wrap_id (n - ss)) by lia. rewrite wrap_id by lia. lia.
  - by rewrite Hfc2.
  - done.
  - done.
  - intros k Hk. by rewrite Hflag2, Hold.
  - done.
Qed.

Lemma resize_up_throws s n :
  vsize (elem_vec s) < n -> max_size < n ->
  resize n s = Throws length_error s.
Proof.
  intros. unfold resize. mstep.
  rewrite decide_False by lia. rewrite decide_True by lia.
  rewrite bind_eq. unfold vec_resize. by rewrite decide_True by lia.
Qed.

Lemma resize_same s n : vsize (elem_vec s) = n -> resize n s = Returns tt s.
Proof. intros. unfold resize. mstep. by rewrite decide_True. Qed.

(** ** Counting *)

Lemma inv_count s fl ul :
  Inv s fl ul ->
  Z.of_nat (length fl) + Z.of_nat (length ul) = vsize (elem_vec s).
Proof.
  intros [Hsz Hf Hu Hfn Hun Hc Hec Hfc].
  assert (fl ++ ul ≡ₚ seqZ 0 (vsize (elem_vec s))) as HP.
  { apply NoDup_Permutation.
    - apply NoDup_app. split_and!; [done| |done].
      intros k Hk Hk'. eapply seg_disjoint; [apply Hf|apply Hu|done..].
    - apply NoDup_seqZ.
    - intros k. rewrite elem_of_app, elem_of_seqZ. split.
      + intros [Hk|Hk]; eapply seg_elem_bound in Hk; eauto; lia.
      + intros Hk. destruct (vget_lt (elem_vec s) k ltac:(lia)) as (e & He).
        specialize (Hc k e He). destruct (is_empty e); auto. }
  apply Permutation_length in HP. rewrite length_app, length_seqZ in HP. lia.
Qed.

(** ** [resize], shrinking: the backward scan *)

Lemma is_free_Some v k :
  is_free v k <-> exists e, vget v k = Some e /\ is_empty e = true.
Proof.
  unfold is_free. destruct (vget v k) as [e|]; simpl; [|naive_solver].
  split; [intros [= ?]; eauto|]. by intros (? & [= <-] & ->).
Qed.

Lemma is_used_Some v k :
  is_used v k <-> exists e, vget v k = Some e /\ is_empty e = false.
Proof.
  unfold is_used. destruct (vget v k) as [e|]; simpl; [|naive_solver].
  split; [intros [= ?]; eauto|]. by intros (? & [= <-] & ->).
Qed.

Lemma is_free_used v k : is_free v k -> is_used v k -> False.
Proof. unfold is_free, is_used. congruence. Qed.

Lemma scan_back_eq i cnt :
  scan_back i cnt =
  (e ← read_elem (Z.of_nat i);
   if is_empty e then
     match i with
     | O => ret (NULL_INDEX, wrap (cnt + 1))
     | S j => scan_back j (wrap (cnt + 1))
     end
   else ret (Z.of_nat i, cnt)).
Proof. by destruct i. Qed.

Lemma scan_back_found s i pos c :
  0 <= pos <= Z.of_nat i -> is_used (elem_vec s) pos ->
  (forall j, pos < j <= Z.of_nat i -> is_free (elem_vec s) j) ->
  0 <= c -> c + Z.of_nat i < 18446744073709551616 ->
  scan_back i c s = Returns (pos, c + (Z.of_nat i - pos)) s.
Proof.
  revert c. induction i as [|i IH]; intros c Hpos Hu Hfree Hc Hci.
  - assert (pos = 0) as -> by lia.
    apply is_used_Some in Hu as (e & He & Hfl).
    rewrite scan_back_eq. change (Z.of_nat 0) with 0. mstep. rewrite Hfl.
    unfold ret. do 2 f_equal. lia.
  - rewrite scan_back_eq. destruct (decide (pos = Z.of_nat (S i))) as [->|Hne].
    + apply is_used_Some in Hu as (e & He & Hfl). mstep. rewrite Hfl.
      unfold ret. do 2 f_equal. lia.
    + destruct (proj1 (is_free_Some _ _) (Hfree (Z.of_nat (S i)) ltac:(lia)))
        as (e & He & Hfl).
      mstep. rewrite Hfl. rewrite wrap_id by lia.
      rewrite IH; [do 2 f_equal; lia|lia|done| |lia|lia].
      intros j Hj. apply Hfree. lia.
Qed.

Lemma scan_back_none s i c :
  (forall j, 0 <= j <= Z.of_nat i -> is_free (elem_vec s) j) ->
  0 <= c -> c + Z.of_nat i + 1 < 18446744073709551616 ->
  scan_back i c s = Returns (NULL_INDEX, c + Z.of_nat i + 1) s.
Proof.
  revert c. induction i as [|i IH]; intros c Hfree Hc Hci.
  - destruct (proj1 (is_free_Some _ _) (Hfree 0 ltac:(lia))) as (e & He & Hfl).
    rewrite scan_back_eq. change (Z.of_nat 0) with 0. mstep. rewrite Hfl.
    rewrite wrap_id by lia. unfold ret. do 2 f_equal. lia.
  - destruct (proj1 (is_free_Some _ _) (Hfree (Z.of_nat (S i)) ltac:(lia)))
      as (e & He & Hfl).
    rewrite scan_back_eq. mstep. rewrite Hfl. rewrite wrap_id by lia.
    rewrite IH; [do 2 f_equal; lia| |lia|lia].
    intros j Hj. apply Hfree. lia.
Qed.

(** ** [resize], shrinking: the relinking loop *)

Lemma relink_eq i :
  relink i =
  (e ← read_elem (Z.of_nat i);
   (if is_empty e then
      ec ← gets empty_cnt;
      modify (set_empty_cnt (wrap (ec + 1)));;
      eh ← gets empty_head;
      if decide (eh = NULL_INDEX) then
        write_elem (Z.of_nat i) (with_prev NULL_INDEX);;
        write_elem (Z.of_nat i) (with_next NULL_INDEX);;
        modify (set_empty_head (Z.of_nat i))
      else
        write_elem eh (with_prev (Z.of_nat i));;
        write_elem (Z.of_nat i) (with_prev NULL_INDEX);;
        eh ← gets empty_head;
        write_elem (Z.of_nat i) (with_next eh);;
        modify (set_empty_head (Z.of_nat i))
    else ret tt);;
   match i with
   | O => ret tt
   | S j => relink j
   end).
Proof. by destruct i. Qed.

Lemma relink_step s1 fl (i : Z) e :
  0 <= i < vsize (elem_vec s1) -> vsize (elem_vec s1) <= max_size ->
  vget (elem_vec s1) i = Some e ->
  seg (elem_vec s1) true NULL_INDEX (empty_head s1) fl NULL_INDEX ->
  NoDup fl -> (forall k, k ∈ fl -> i < k) ->
  empty_cnt s1 = Z.of_nat (length fl) ->
  exists t,
    (if is_empty e then
       ec ← gets empty_cnt;
       modify (set_empty_cnt (wrap (ec + 1)));;
       eh ← gets empty_head;
       if decide (eh = NULL_INDEX) then
         write_elem i (with_prev NULL_INDEX);;
         write_elem i (with_next NULL_INDEX);;
         modify (set_empty_head i)
       else
         write_elem eh (with_prev i);;
         write_elem i (with_prev NULL_INDEX);;
         eh ← gets empty_head;
         write_elem i (with_next eh);;
         modify (set_empty_head i)
     else ret tt) s1 = Returns tt t /\
    relink_post s1 fl [i] t.
Proof.
  intros Hi Hmax He Hs Hnd Hfl Hec.
  pose proof max_size_bounds as Hms. pose proof NULL_INDEX_eq as HN.
  pose proof (fun j => seg_elem_bound _ _ _ _ _ _ j Hs) as Hflb.
  unfold relink_post. rewrite filter_singleton; [|exact []].
  destruct (is_empty e) eqn:Hfl_e.
  - rewrite decide_True by (apply is_free_Some; eauto).
    assert (0 <= vsize (elem_vec s1)) as Hnn by lia.
    pose proof (nodup_bounded_length fl _ Hnn Hnd Hflb) as Hlen.
    assert (i ∉ fl) as Hifl by (intros ?%Hfl; lia).
    pose proof (seg_head_cases _ _ _ _ _ Hmax Hs) as [[Hh ->]|(Hh & Hhb & l' & ->)].
    + repeat mstep. rewrite decide_True by done. repeat mstep.
      unfold modify. proj_simpl. eexists. split; [reflexivity|]. proj_simpl.
      split_and!; try done.
      * bounds.
      * eapply seg_push; [apply NoDup_singleton| | | |apply Hs].
        -- vget_cases. rewrite He, Hh. destruct e; simpl in *. by subst.
        -- by intros j ?%elem_of_nil.
        -- by intros ?%elem_of_nil.
      * rewrite Hec. simpl. by rewrite wrap_id by lia.
      * flag_frame.
      * intros k Hk. assert (i <> k).
        { intros ->. apply Hk, is_free_Some. eauto. }
        vget_cases.
    + repeat mstep. rewrite decide_False by done. repeat mstep.
      unfold modify. proj_simpl. eexists. split; [reflexivity|]. proj_simpl.
      assert (i < empty_head s1) by (apply Hfl; left).
      split_and!; try done.
      * bounds.
      * eapply seg_push; [by apply NoDup_cons| | | |apply Hs].
        -- vget_cases. rewrite He. destruct e; simpl in *. by subst.
        -- intros j Hj Hjh. specialize (Hfl j Hj). vget_cases.
        -- intros _. vget_cases.
      * rewrite Hec. simpl length. rewrite wrap_id by (simpl length in Hlen; lia). lia.
      * flag_frame.
      * intros k Hk. assert (i <> k).
        { intros ->. apply Hk, is_free_Some. eauto. }
        assert (empty_head s1 <> k).
        { intros <-. apply Hk, is_free_Some.
          destruct Hs as (_ & e' & He' & Hfe' & _). eauto. }
        vget_cases.
  - rewrite decide_False.
    2:{ intros (e' & He' & Hfe')%is_free_Some. congruence. }
    eexists. split; [reflexivity|]. simpl. split_and!; done.
Qed.

Lemma relink_spec i s1 fl :
  Z.of_nat i < vsize (elem_vec s1) -> vsize (elem_vec s1) <= max_size ->
  seg (elem_vec s1) true NULL_INDEX (empty_head s1) fl NULL_INDEX ->
  NoDup fl -> (forall k, k ∈ fl -> Z.of_nat i < k) ->
  empty_cnt s1 = Z.of_nat (length fl) ->
  exists t, relink i s1 = Returns tt t /\
            relink_post s1 fl (seqZ 0 (Z.of_nat (S i))) t.
Proof.
  revert s1 fl. induction i as [|i IH]; intros s1 fl Hi Hmax Hs Hnd Hfl Hec.
  - destruct (vget_lt (elem_vec s1) 0 ltac:(lia)) as (e & He).
    rewrite relink_eq. change (Z.of_nat 0) with 0. mstep.
    destruct (relink_step s1 fl 0 e) as (t1 & Ht1 & Hpost1); [lia|done..|].
    rewrite (step_returns _ _ _ _ _ Ht1). unfold ret. eauto.
  - destruct (vget_lt (elem_vec s1) (Z.of_nat (S i)) ltac:(lia)) as (e & He).
    rewrite relink_eq. mstep.
    destruct (relink_step s1 fl (Z.of_nat (S i)) e) as (t1 & Ht1 & Hpost1);
      [lia|done..|].
    rewrite (step_returns _ _ _ _ _ Ht1).
    destruct Hpost1 as (Hfh1 & Hfc1 & Hsz1 & Hs1 & Hec1 & Hflag1 & Hframe1).
    set (fl1 := filter (is_free (elem_vec s1)) [Z.of_nat (S i)] ++ fl) in *.
    assert (forall k, k ∈ fl1 -> Z.of_nat i < k) as Hfl1.
    { intros k [Hk|Hk]%elem_of_app.
      - apply list_elem_of_filter in Hk as [_ Hk%list_elem_of_singleton]. lia.
      - specialize (Hfl k Hk). lia. }
    assert (NoDup fl1) as Hnd1.
    { apply NoDup_app. split_and!; [apply NoDup_filter, NoDup_singleton| |done].
      intros k [_ Hk%list_elem_of_singleton]%list_elem_of_filter Hk'%Hfl. lia. }
    destruct (IH t1 fl1) as (t & Ht & Hfh & Hfc & Hsz & Hst & Hect & Hflag & Hframe);
      [lia|lia|done..|].
    exists t. split; [done|].
    assert (filter (is_free (elem_vec t1)) (seqZ 0 (Z.of_nat (S i))) ++ fl1 =
            filter (is_free (elem_vec s1)) (seqZ 0 (Z.of_nat (S (S i)))) ++ fl)
      as Hlist.
    { rewrite (seqZ_S 0 (S i)), filter_app, <- app_assoc. subst fl1.
      f_equal. apply list_filter_iff. intros k. unfold is_free. by rewrite Hflag1. }
    rewrite Hlist in Hst, Hect.
    split_and!; [congruence|congruence|congruence|done|done| |].
    + intros k. by rewrite Hflag, Hflag1.
    + intros k Hk. rewrite Hframe, Hframe1; [done..|].
      unfold is_free in *. by rewrite Hflag1.
Qed.

(** ** [resize], shrinking *)

Lemma free_or_used v k : 0 <= k < vsize v -> is_free v k \/ is_used v k.
Proof.
  intros (e & He)%vget_lt. unfold is_free, is_used. rewrite He. simpl.
  destruct (is_empty e); auto.
Qed.

Lemma last_used_exists v (n : nat) :
  Z.of_nat n <= vsize v ->
  (forall j, 0 <= j < Z.of_nat n -> is_free v j) \/
  (exists pos, 0 <= pos < Z.of_nat n /\ is_used v pos /\
               forall j, pos < j < Z.of_nat n -> is_free v j).
Proof.
  induction n as [|n IH]; intros Hn; [left; lia|].
  destruct (free_or_used v (Z.of_nat n) ltac:(lia)) as [Hf|Hu].
  - destruct IH as [IH|(pos & Hpos & Hu & Hfree)]; [lia| |].
    + left. intros j Hj. destruct (decide (j = Z.of_nat n)) as [->|]; [done|].
      apply IH. lia.
    + right. exists pos. split; [lia|]. split; [done|]. intros j Hj.
      destruct (decide (j = Z.of_nat n)) as [->|]; [done|]. apply Hfree. lia.
  - right. exists (Z.of_nat n). split; [lia|]. split; [done|]. intros j Hj. lia.
Qed.

Lemma last_used_bound v pos : last_used v pos -> 0 <= pos < vsize v.
Proof. intros [(e & He & _)%is_used_Some _]. by eapply vget_Some. Qed.

(** The slots after the highest filled one are on the empty list. *)
Lemma trailing_le_empty_cnt s fl ul pos :
  Inv s fl ul -> last_used (elem_vec s) pos ->
  vsize (elem_vec s) - 1 - pos <= empty_cnt s.
Proof.
  intros HI [Hu Hfree]. pose proof (last_used_bound _ _ (conj Hu Hfree)) as Hb.
  destruct HI as [Hsz Hf _ Hfn _ Hc Hec _]. rewrite Hec.
  set (n := vsize (elem_vec s)) in *.
  assert (seqZ (pos + 1) (n - 1 - pos) ⊆+ fl) as Hsub.
  { apply NoDup_submseteq; [apply NoDup_seqZ|].
    intros k Hk%elem_of_seqZ.
    destruct (proj1 (is_free_Some _ _) (Hfree k ltac:(lia))) as (e & He & Hfl).
    specialize (Hc k e He). by rewrite Hfl in Hc. }
  apply submseteq_length in Hsub. rewrite length_seqZ in Hsub. lia.
Qed.

Lemma step_scan_back {B} i c pc (k : Z * Z -> M B) s :
  scan_back i c s = Returns pc s -> (scan_back i c ≫= k) s = k pc s.
Proof. apply step_returns. Qed.

Lemma resize_down_none s n :
  1 <= vsize (elem_vec s) <= max_size -> 0 <= n < vsize (elem_vec s) ->
  (forall j, 0 <= j < vsize (elem_vec s) -> is_free (elem_vec s) j) ->
  let n' := if decide (0 < n) then n else 1 in
  exists s', resize n s = Returns tt s' /\ Inv s' (seqZ 0 n') [] /\
             vsize (elem_vec s') = n'.
Proof.
  intros Hsz Hn Hfree n'.
  pose proof max_size_bounds as Hms. pose proof NULL_INDEX_eq as HN.
  assert (1 <= n' <= vsize (elem_vec s)) by (subst n'; case_decide; lia).
  unfold resize. mstep. do 2 rewrite decide_False by lia.
  rewrite wrap_id by lia.
  erewrite step_scan_back; [|apply scan_back_none; [|lia|lia]].
  2:{ intros j Hj. apply Hfree. lia. }
  cbv beta iota. rewrite decide_True by done. fold n'.
  rewrite step_vec_resize by lia. mstep.
  rewrite vsize_vresize by lia.
  apply initialize_spec; proj_simpl; [apply vsize_vresize; lia|lia].
Qed.

Lemma resize_down_last s n :
  1 <= vsize (elem_vec s) <= max_size -> n < vsize (elem_vec s) ->
  is_used (elem_vec s) (vsize (elem_vec s) - 1) ->
  resize n s = Returns tt s.
Proof.
  intros Hsz Hn Hu.
  pose proof max_size_bounds as Hms. pose proof NULL_INDEX_eq as HN.
  unfold resize. mstep. do 2 rewrite decide_False by lia.
  rewrite wrap_id by lia.
  erewrite step_scan_back;
    [|apply (scan_back_found _ _ (vsize (elem_vec s) - 1)); [lia|done|lia|lia|lia]].
  cbv beta iota. rewrite decide_False by lia. by rewrite decide_True by lia.
Qed.

Lemma resize_down_reject s n pos :
  1 <= vsize (elem_vec s) <= max_size -> n < vsize (elem_vec s) ->
  last_used (elem_vec s) pos -> pos <> vsize (elem_vec s) - 1 ->
  vsize (elem_vec s) - 1 - pos <= empty_cnt s < 18446744073709551616 ->
  empty_cnt s - (vsize (elem_vec s) - 1 - pos) < 4 ->
  resize n s = Returns tt s.
Proof.
  intros Hsz Hn Hlast Hpos Hec Hlt.
  pose proof (last_used_bound _ _ Hlast) as Hb. destruct Hlast as [Hu Hfree].
  pose proof max_size_bounds as Hms. pose proof NULL_INDEX_eq as HN.
  unfold resize. mstep. do 2 rewrite decide_False by lia.
  rewrite wrap_id by lia.
  erewrite step_scan_back; [|apply (scan_back_found _ _ pos); [lia|done| |lia|lia]].
  2:{ intros j Hj. apply Hfree. lia. }
  cbv beta iota. do 2 rewrite decide_False by lia. mstep.
  rewrite wrap_id by lia. by rewrite decide_True by lia.
Qed.

Lemma used_le_last v pos k : last_used v pos -> is_used v k -> k <= pos.
Proof.
  intros [_ Hfree] Hu. destruct (decide (k <= pos)) as [|Hk]; [done|].
  apply is_used_Some in Hu as Hu'. destruct Hu' as (e & He%vget_Some & _).
  destruct (is_free_used v k); [apply Hfree; lia|done].
Qed.

Lemma resize_down_trunc s fl ul n pos :
  Inv s fl ul -> 0 <= n < vsize (elem_vec s) ->
  last_used (elem_vec s) pos -> pos <> vsize (elem_vec s) - 1 ->
  4 <= empty_cnt s - (vsize (elem_vec s) - 1 - pos) ->
  let n' := if decide (0 < n) then n else 1 in
  exists s', resize n s = Returns tt s' /\
    vsize (elem_vec s') = Z.max n' (pos + 1) /\
    Inv s' (filter (is_free (elem_vec s')) (seqZ 0 (vsize (elem_vec s')))) ul /\
    filled_head s' = filled_head s /\
    (forall k, k < vsize (elem_vec s') ->
       is_empty <$> vget (elem_vec s') k = is_empty <$> vget (elem_vec s) k) /\
    (forall k, is_used (elem_vec s) k -> vget (elem_vec s') k = vget (elem_vec s) k).
Proof.
  intros HI Hn Hlast Hpos Hge n'.
  pose proof (last_used_bound _ _ Hlast) as Hb.
  pose proof (trailing_le_empty_cnt _ _ _ _ HI Hlast) as Hcnt.
  pose proof (inv_count _ _ _ HI) as Hcount.
  destruct HI as [Hsz Hf Hu Hfn Hun Hc Hec Hfc].
  pose proof max_size_bounds as Hms. pose proof NULL_INDEX_eq as HN.
  set (v := elem_vec s) in *. set (ss := vsize v) in *.
  set (m := Z.max n' (pos + 1)).
  assert (1 <= n' < ss) by (subst n'; case_decide; lia).
  assert (forall k, k < m -> vget (vresize m v) k = vget v k) as Hold.
  { intros k Hk. apply vget_vresize_old; lia. }
  assert (forall k, is_used v k -> k < m) as Hum.
  { intros k Hk. pose proof (used_le_last _ _ _ Hlast Hk). lia. }
  assert (forall k, k ∈ ul -> is_used v k) as Hulu.
  { intros k Hk. apply is_used_Some. by eapply seg_lookup. }
  unfold resize. mstep. fold v ss. do 2 rewrite decide_False by lia.
  rewrite wrap_id by lia.
  erewrite step_scan_back;
    [|apply (scan_back_found _ _ pos); [lia|apply Hlast| |lia|lia]].
  2:{ intros j Hj. apply Hlast. fold v ss. lia. }
  cbv beta iota. do 2 rewrite decide_False by lia. mstep.
  rewrite wrap_id by lia. rewrite decide_False by lia. fold n'.
  rewrite wrap_id by lia.
  assert (forall B (k : unit -> M B),
    ((if decide (pos + 1 < n') then vec_resize n' else vec_resize (pos + 1)) ≫= k) s =
    k tt (set_elem_vec (vresize m v) s)) as ->.
  { intros B k. subst m. case_decide.
    - rewrite Z.max_l by lia. apply step_vec_resize. lia.
    - rewrite Z.max_r by lia. apply step_vec_resize. lia. }
  repeat mstep. rewrite vsize_vresize by lia. rewrite wrap_id by lia.
  match goal with
  | |- context [relink _ ?s1] =>
      destruct (relink_spec (Z.to_nat (m - 1)) s1 [])
        as (t & Ht & Hfh & Hfct & Hszt & Hst & Hect & Hflag & Hframe)
  end.
  { proj_simpl. rewrite vsize_vresize by lia. lia. }
  { proj_simpl. rewrite vsize_vresize by lia. lia. }
  { done. }
  { apply NoDup_nil_2. }
  { by intros k ?%elem_of_nil. }
  { done. }
  rewrite Ht. proj_simpl. rewrite vsize_vresize in Hszt by lia.
  replace (Z.of_nat (S (Z.to_nat (m - 1)))) with m in * by lia.
  rewrite app_nil_r in Hst, Hect.
  assert (filter (is_free (vresize m v)) (seqZ 0 m) =
          filter (is_free (elem_vec t)) (seqZ 0 (vsize (elem_vec t)))) as Hlist.
  { rewrite Hszt. apply list_filter_iff. intros k. unfold is_free.
    by rewrite Hflag. }
  rewrite Hlist in Hst, Hect.
  assert (forall k, is_used v k -> vget (elem_vec t) k = vget v k) as Hkeep.
  { intros k Hk. rewrite Hframe, Hold; [done|by apply Hum|].
    unfold is_free, is_used in *. rewrite Hold by (by apply Hum). congruence. }
  exists t. split; [done|]. split; [done|]. split; [split|]; try done.
  - lia.
  - rewrite Hfh. eapply seg_ext; [|apply Hu]. intros k Hk. by apply Hkeep, Hulu.
  - apply NoDup_filter, NoDup_seqZ.
  - intros k e He. pose proof (vget_Some _ _ _ He) as Hkb.
    destruct (is_empty e) eqn:Hfl.
    + apply list_elem_of_filter. split.
      * unfold is_free. by rewrite He; simpl; rewrite Hfl.
      * apply elem_of_seqZ. lia.
    + specialize (Hflag k). rewrite He, Hold in Hflag by lia. simpl in Hflag.
      destruct (vget v k) as [e0|] eqn:He0; [|done].
      injection Hflag as Hfl0. specialize (Hc k e0 He0).
      by rewrite <- Hfl0, Hfl in Hc.
  - by rewrite Hfct.
  - split; [done|]. split; [|done].
    intros k Hk. rewrite Hflag, Hold by lia. done.
Qed.

Lemma resize_down_inv s fl ul n :
  Inv s fl ul -> 0 <= n < vsize (elem_vec s) ->
  exists s' fl', resize n s = Returns tt s' /\ Inv s' fl' ul /\
    filled_head s' = filled_head s /\
    (forall k, is_used (elem_vec s) k -> vget (elem_vec s') k = vget (elem_vec s) k).
Proof.
  intros HI Hn. pose proof (inv_size _ _ _ HI) as Hsz.
  pose proof max_size_bounds as Hms.
  destruct (last_used_exists (elem_vec s) (Z.to_nat (vsize (elem_vec s))))
    as [Hfree|(pos & Hpos & Hu & Hfree)]; [lia| |].
  - destruct (resize_down_none s n Hsz Hn) as (s' & Hs' & HI' & _).
    { intros j Hj. apply Hfree. lia. }
    assert (ul = []) as ->.
    { destruct ul as [|k ul]; [done|].
      destruct (seg_lookup _ _ _ _ _ _ k (inv_used _ _ _ HI)) as (e & He & Hfl);
        [left|].
      pose proof (vget_Some _ _ _ He).
      destruct (is_free_used (elem_vec s) k); [apply Hfree; lia|].
      apply is_used_Some. eauto. }
    eexists s', _. split; [done|]. split; [done|]. split.
    + pose proof (inv_used _ _ _ HI) as H1. pose proof (inv_used _ _ _ HI') as H2.
      simpl in H1, H2. congruence.
    + intros k Hk. pose proof Hk as (e & He%vget_Some & _)%is_used_Some.
      destruct (is_free_used (elem_vec s) k); [apply Hfree; lia|done].
  - assert (last_used (elem_vec s) pos) as Hlast.
    { split; [done|]. intros j Hj. apply Hfree. lia. }
    destruct (decide (pos = vsize (elem_vec s) - 1)) as [->|Hne].
    { exists s, fl. rewrite resize_down_last by (done || lia). done. }
    pose proof (trailing_le_empty_cnt _ _ _ _ HI Hlast) as Hcnt.
    pose proof (inv_count _ _ _ HI) as Hcount.
    pose proof (inv_empty_cnt _ _ _ HI) as Hec.
    destruct (decide (empty_cnt s - (vsize (elem_vec s) - 1 - pos) < 4)) as [Hlt|Hge].
    + exists s, fl. rewrite (resize_down_reject s n pos) by (done || lia). done.
    + destruct (resize_down_trunc s fl ul n pos HI Hn Hlast Hne ltac:(lia))
        as (s' & Hs' & _ & HI' & Hfh & _ & Hkeep).
      eauto 10.
Qed.

(** ** Every call preserves the invariant *)

Lemma acquire_full s ul :
  Inv s [] ul -> max_size <= vsize (elem_vec s) ->
  acquire s = Throws length_error s.
Proof.
  intros HI Hfull. pose proof (inv_free _ _ _ HI) as Hf. simpl in Hf.
  unfold acquire. mstep. rewrite decide_False by (rewrite Hf; tauto).
  mstep. rewrite bind_eq. unfold vec_push_back. by rewrite decide_True.
Qed.

Lemma clear_spec s fl ul :
  Inv s fl ul ->
  exists s', clear s = Returns tt s' /\
             Inv s' (seqZ 0 (vsize (elem_vec s))) [] /\
             vsize (elem_vec s') = vsize (elem_vec s).
Proof.
  intros HI. unfold clear. mstep.
  apply initialize_spec; [done|]. apply (inv_size _ _ _ HI).
Qed.

Lemma give_back_inv s fl ul ind :
  Inv s fl ul -> 0 <= ind ->
  exists s' fl' ul', post (give_back ind s) = Some s' /\ Inv s' fl' ul'.
Proof.
  intros HI Hind.
  destruct (decide (vsize (elem_vec s) <= ind)) as [Hout|Hin].
  { rewrite give_back_out by done. simpl. eauto. }
  destruct (vget_lt (elem_vec s) ind ltac:(lia)) as (e & He).
  destruct (is_empty e) eqn:Hfl.
  { rewrite (give_back_free _ _ _ He Hfl). simpl. eauto. }
  pose proof (inv_cover _ _ _ HI _ _ He) as Hul. rewrite Hfl in Hul.
  apply list_elem_of_split in Hul as (l1 & l2 & ->).
  destruct (give_back_used _ _ _ _ _ HI) as (s' & Hs' & HI' & _).
  rewrite Hs'. simpl. eauto.
Qed.

Lemma is_slot_empty_post s ind :
  0 <= ind -> post (is_slot_empty ind s) = Some s.
Proof.
  intros Hind. destruct (decide (vsize (elem_vec s) <= ind)) as [Hout|Hin].
  - by rewrite is_slot_empty_out.
  - destruct (vget_lt (elem_vec s) ind ltac:(lia)) as (e & He).
    by rewrite (is_slot_empty_in _ _ _ He).
Qed.

Lemma resize_inv s fl ul n :
  Inv s fl ul -> 0 <= n ->
  exists s' fl', post (resize n s) = Some s' /\ Inv s' fl' ul.
Proof.
  intros HI Hn.
  destruct (Z.lt_trichotomy n (vsize (elem_vec s))) as [Hlt|[Heq|Hgt]].
  - destruct (resize_down_inv _ _ _ n HI ltac:(lia)) as (s' & fl' & Hs' & HI' & _).
    rewrite Hs'. simpl. eauto.
  - rewrite resize_same by done. simpl. eauto.
  - destruct (decide (n <= max_size)) as [Hle|Hbig].
    + destruct (resize_up _ _ _ n HI ltac:(lia)) as (s' & Hs' & HI' & _).
      rewrite Hs'. simpl. eauto.
    + rewrite resize_up_throws by lia. simpl. eauto.
Qed.

Lemma exec_inv c s fl ul :
  Inv s fl ul -> call_ok c ->
  exists s' fl' ul', exec c s = Some s' /\ Inv s' fl' ul'.
Proof.
  intros HI Hok. destruct c as [|ind|ind| |n|n| |]; simpl in *.
  - destruct fl as [|i fl].
    + destruct (decide (vsize (elem_vec s) < max_size)) as [Hlt|Hfull].
      * destruct (acquire_grow _ _ HI Hlt) as (s' & Hs' & HI' & _).
        rewrite Hs'. simpl. eauto.
      * rewrite (acquire_full _ _ HI) by lia. simpl. eauto.
    + destruct (acquire_pop _ _ _ _ HI) as (s' & Hs' & HI' & _).
      rewrite Hs'. simpl. eauto.
  - apply (give_back_inv s fl ul); [done|]. apply Hok.
  - rewrite is_slot_empty_post by apply Hok. eauto.
  - destruct (clear_spec _ _ _ HI) as (s' & Hs' & HI' & _).
    rewrite Hs'. simpl. eauto.
  - destruct (resize_inv _ _ _ n HI) as (s' & fl' & Hs' & HI'); [apply Hok|]. eauto.
  - unfold reserve. case_decide; simpl; eauto.
  - destruct (resize_inv _ _ _ 1 HI) as (s' & fl' & Hs' & HI'); [lia|]. eauto.
  - eauto.
Qed.

Lemma reachable_inv s : reachable s -> exists fl ul, Inv s fl ul.
Proof.
  induction 1 as [n s Hn Hs|s Hs|c s s' Hr (fl & ul & HI) Hok Hs'].
  - destruct (decide ((if decide (0 < n) then n else 1) <= max_size)) as [Hle|Hbig].
    + destruct (construct_spec n Hle) as (s0 & Hs0 & HI & _).
      assert (s0 = s) as -> by congruence. eauto.
    + unfold construct in Hs. rewrite bind_eq in Hs. unfold vec_resize in Hs.
      by rewrite decide_True in Hs by lia.
  - destruct construct_default_spec as (s0 & Hs0 & HI & _).
    assert (s0 = s) as -> by congruence. eauto.
  - destruct (exec_inv c s fl ul HI Hok) as (s0 & fl' & ul' & Hs0 & HI').
    assert (s0 = s') as -> by congruence. eauto.
Qed.

(** No call has undefined behaviour on a reachable state. *)
Lemma reachable_defined s c :
  reachable s -> call_ok c -> exists s', exec c s = Some s'.
Proof.
  intros (fl & ul & HI)%reachable_inv Hok.
  destruct (exec_inv c s fl ul HI Hok) as (s' & _ & _ & Hs' & _). eauto.
Qed.

(** ** Consequences used by the specification theorems *)

Lemma inv_head_free s fl ul :
  Inv s fl ul -> empty_head s <> NULL_INDEX ->
  exists fl', fl = empty_head s :: fl'.
Proof.
  intros HI Hne.
  destruct (seg_head_cases _ _ _ _ _ (proj2 (inv_size _ _ _ HI)) (inv_free _ _ _ HI))
    as [[? _]|(_ & _ & l' & ->)]; [done|eauto].
Qed.



Lemma inv_free_slot s fl ul i :
  Inv s fl ul -> i ∈ fl -> is_slot_empty i s = Returns true s.
Proof.
  intros HI Hi.
  destruct (seg_lookup _ _ _ _ _ _ i (inv_free _ _ _ HI) Hi) as (e & He & Hfl).
  rewrite <- Hfl. by apply is_slot_empty_in.
Qed.

(** A successful [is_slot_empty] reads the flag of an in-bounds slot. *)
Lemma is_slot_empty_returns s ind b s' :
  is_slot_empty ind s = Returns b s' ->
  exists e, vget (elem_vec s) ind = Some e /\ is_empty e = b.
Proof.
  unfold is_slot_empty. rewrite step_vec_size. case_decide; [done|].
  rewrite bind_eq. unfold read_elem.
  destruct (vget (elem_vec s) ind) as [e|]; [|done].
  intros [= <- _]. eauto.
Qed.

Lemma inv_slot_used s fl ul ind s' :
  Inv s fl ul -> is_slot_empty ind s = Returns false s' -> ind ∈ ul.
Proof.
  intros HI (e & He & Hfl)%is_slot_empty_returns.
  pose proof (inv_cover _ _ _ HI _ _ He) as Hc. by rewrite Hfl in Hc.
Qed.

(** Two lists over the same slots from the same predecessor link start on
    the same head. *)
Lemma seg_same_head v v' flag p p' h h' l :
  seg v flag p h l NULL_INDEX -> seg v' flag p' h' l NULL_INDEX -> h = h'.
Proof. destruct l; simpl; [congruence|]. intros [-> _] [-> _]. done. Qed.

(** * The specification, claim by claim *)

Lemma reachable_run cs s s' :
  reachable s -> Forall call_ok cs -> run_calls cs s = Some s' -> reachable s'.
Proof.
  revert s. induction cs as [|c cs IH]; intros s Hr Hok Hrun; simpl in Hrun.
  - by injection Hrun as <-.
  - apply Forall_cons in Hok as [Hc Hok].
    destruct (exec c s) as [s1|] eqn:Hs1; [|done].
    eapply IH; [|done..]. by eapply reach_call.
Qed.

Ltac calls_ok := repeat constructor; unfold is_size_t; lia.

Lemma fresh7_reachable : reachable fresh7.
Proof. apply (reach_construct 7); [unfold is_size_t; lia|]. by vm_compute. Qed.

Lemma used6_reachable : reachable used6.
Proof.
  apply (reachable_run (replicate 6 Acquire) fresh7);
    [apply fresh7_reachable|calls_ok|by vm_compute].
Qed.

Lemma scattered_reachable : reachable scattered.
Proof.
  apply (reachable_run [GiveBack 0; GiveBack 1; GiveBack 2; GiveBack 3] used6);
    [apply used6_reachable|calls_ok|by vm_compute].
Qed.

(** C1: in every state reachable through the public interface (construction
    with any [n], then any sequence of [acquire], [give_back], [is_slot_empty],
    [clear], [resize], [reserve], [resize_to_min], [shrink_to_fit] calls,
    returning or throwing), the accessors return, and
    [empty_count() + filled_count() == size()], both as integers and in
    [size_t] arithmetic. *)
Theorem counts_sum_to_size s :
  reachable s ->
  exists e f n,
    empty_count s = Returns e s /\ filled_count s = Returns f s /\
    size s = Returns n s /\ e + f = n /\ wrap (e + f) = n.
Proof.
  intros (fl & ul & HI)%reachable_inv.
  pose proof (inv_count _ _ _ HI) as Hcount.
  pose proof (inv_size _ _ _ HI) as Hsz. pose proof max_size_bounds.
  exists (empty_cnt s), (filled_cnt s), (vsize (elem_vec s)).
  split_and!; [done..| |];
    rewrite (inv_empty_cnt _ _ _ HI), (inv_filled_cnt _ _ _ HI);
    [lia|rewrite wrap_id; lia].
Qed.

Lemma counts_sum_to_size_witness :
  exists e f n,
    empty_count scattered = Returns e scattered /\
    filled_count scattered = Returns f scattered /\
    size scattered = Returns n scattered /\ e + f = n /\ wrap (e + f) = n.
Proof. apply (counts_sum_to_size scattered). apply scattered_reachable. Defined.



(** C3: [give_back(ind)] on an in-bounds slot that is already empty throws
    the double-release [logic_error] and leaves the whole state as it was;
    on a filled slot of a reachable state it returns, the slot is then
    reported empty, it is the new head of the empty list with the old head as
    its successor, the filled count goes down by one and the empty count up
    by one. *)
Theorem give_back_checks_then_releases s ind :
  (is_slot_empty ind s = Returns true s ->
   give_back ind s = Throws logic_error s) /\
  (reachable s -> is_slot_empty ind s = Returns false s ->
   exists s',
     give_back ind s = Returns tt s' /\
     is_slot_empty ind s' = Returns true s' /\
     empty_head s' = ind /\
     vget (elem_vec s') ind = Some (mkElem true NULL_INDEX (empty_head s)) /\
     filled_cnt s' = filled_cnt s - 1 /\
     empty_cnt s' = empty_cnt s + 1 /\
     vsize (elem_vec s') = vsize (elem_vec s)).
Proof.
  split.
  - intros (e & He & Hfl)%is_slot_empty_returns. by eapply give_back_free.
  - intros (fl & ul & HI)%reachable_inv Hused.
    pose proof (inv_slot_used _ _ _ _ _ HI Hused) as Hin.
    apply list_elem_of_split in Hin as (l1 & l2 & ->).
    destruct (give_back_used _ _ _ _ _ HI) as (s' & Hs' & HI' & Hsz & _).
    exists s'. split_and!; try done.
    + eapply inv_free_slot; [done|left].
    + by destruct (inv_free _ _ _ HI') as [-> _].
    + destruct (inv_free _ _ _ HI') as (_ & e & He & Hfl & Hp & Hseg).
      rewrite He. f_equal. destruct e as [b p nx]; simpl in *. subst b p.
      f_equal. eapply seg_same_head; [done|apply (inv_free _ _ _ HI)].
    + rewrite (inv_filled_cnt _ _ _ HI), (inv_filled_cnt _ _ _ HI').
      rewrite !length_app. simpl length. lia.
    + rewrite (inv_empty_cnt _ _ _ HI), (inv_empty_cnt _ _ _ HI'). simpl length. lia.
Qed.

Lemma give_back_checks_then_releases_witness :
  give_back 0 scattered = Throws logic_error scattered /\
  exists s',
    give_back 4 scattered = Returns tt s' /\
    is_slot_empty 4 s' = Returns true s' /\
    empty_head s' = 4 /\
    vget (elem_vec s') 4 = Some (mkElem true NULL_INDEX (empty_head scattered)) /\
    filled_cnt s' = filled_cnt scattered - 1 /\
    empty_cnt s' = empty_cnt scattered + 1 /\
    vsize (elem_vec s') = vsize (elem_vec scattered).
Proof.
  split.
  - apply (proj1 (give_back_checks_then_releases scattered 0)). by vm_compute.
  - apply (proj2 (give_back_checks_then_releases scattered 4)).
    + apply scattered_reachable.
    + by vm_compute.
Defined.

(** C4: reuse is last-in first-out.  On a reachable state with two distinct
    filled slots [a] and [b], [give_back(a)] and then [give_back(b)] both
    return, the next [acquire()] returns [b] and the one after it [a]. *)
Theorem reuse_is_lifo s a b :
  reachable s -> a <> b ->
  is_slot_empty a s = Returns false s ->
  is_slot_empty b s = Returns false s ->
  exists s1 s2 s3 s4,
    give_back a s = Returns tt s1 /\
    give_back b s1 = Returns tt s2 /\
    acquire s2 = Returns b s3 /\
    acquire s3 = Returns a s4.
Proof.
  intros (fl & ul & HI)%reachable_inv Hab Ha Hb.
  pose proof (inv_slot_used _ _ _ _ _ HI Ha) as Hain.
  pose proof (inv_slot_used _ _ _ _ _ HI Hb) as Hbin.
  apply list_elem_of_split in Hain as (l1 & l2 & ->).
  destruct (give_back_used _ _ _ _ _ HI) as (s1 & Hs1 & HI1 & _).
  assert (b ∈ l1 ++ l2) as Hbin'.
  { apply elem_of_app in Hbin as [?|[?|?]%elem_of_cons]; set_solver. }
  apply list_elem_of_split in Hbin' as (k1 & k2 & Hk). rewrite Hk in HI1.
  destruct (give_back_used _ _ _ _ _ HI1) as (s2 & Hs2 & HI2 & _).
  destruct (acquire_pop _ _ _ _ HI2) as (s3 & Hs3 & HI3 & _).
  destruct (acquire_pop _ _ _ _ HI3) as (s4 & Hs4 & HI4 & _).
  by exists s1, s2, s3, s4.
Qed.

Lemma reuse_is_lifo_witness :
  exists s1 s2 s3 s4,
    give_back 1 used6 = Returns tt s1 /\
    give_back 4 s1 = Returns tt s2 /\
    acquire s2 = Returns 4 s3 /\
    acquire s3 = Returns 1 s4.
Proof.
  apply (reuse_is_lifo used6 1 4 used6_reachable); [lia|by vm_compute..].
Defined.

(** ** The trailing run of empty slots *)

Lemma leading_free_app l e r :
  Forall (fun x => is_empty x = true) l -> is_empty e = false ->
  leading_free (l ++ e :: r) = length l.
Proof.
  intros Hl He. induction Hl as [|x l Hx Hl IH]; simpl.
  - by rewrite He.
  - by rewrite Hx, IH.
Qed.

Lemma trailing_free_last_used v pos :
  last_used v pos -> trailing_free v = vsize v - 1 - pos.
Proof.
  intros Hlast. pose proof (last_used_bound _ _ Hlast) as Hb.
  destruct Hlast as [(e & He & Hfl)%is_used_Some Hfree].
  replace pos with (Z.of_nat (Z.to_nat pos)) in He by lia.
  rewrite vget_nat in He.
  unfold trailing_free. rewrite <- (take_drop_middle v _ _ He) at 1.
  rewrite reverse_app, reverse_cons, <- app_assoc. simpl.
  rewrite leading_free_app; [| |done].
  - rewrite length_reverse, length_drop. rewrite vsize_length in *. lia.
  - apply Forall_reverse, Forall_lookup. intros i x Hx.
    rewrite lookup_drop in Hx. pose proof (lookup_lt_Some _ _ _ Hx) as Hlt.
    rewrite <- vget_nat in Hx.
    destruct (proj1 (is_free_Some v (Z.of_nat (S (Z.to_nat pos) + i))))
      as (x' & Hx' & Hfx); [|congruence].
    apply Hfree. rewrite vsize_length. lia.
Qed.

Lemma inv_last_used s fl ul :
  Inv s fl ul -> 0 < filled_cnt s -> exists pos, last_used (elem_vec s) pos.
Proof.
  intros HI Hpos. pose proof (inv_size _ _ _ HI) as Hsz.
  rewrite (inv_filled_cnt _ _ _ HI) in Hpos.
  destruct ul as [|k ul]; [simpl in Hpos; lia|].
  destruct (seg_lookup _ _ _ _ _ _ k (inv_used _ _ _ HI)) as (e & He & Hfl); [left|].
  pose proof (vget_Some _ _ _ He) as Hk.
  destruct (last_used_exists (elem_vec s) (Z.to_nat (vsize (elem_vec s))))
    as [Hfree|(pos & Hp & Hu & Hfree)]; [lia| |].
  - destruct (is_free_used (elem_vec s) k); [apply Hfree; lia|].
    apply is_used_Some. eauto.
  - exists pos. split; [done|]. intros j Hj. apply Hfree. lia.
Qed.

Lemma acquire_n_pops l s fl ul :
  Inv s (l ++ fl) ul ->
  exists s', acquire_n (length l) s = Returns l s' /\ Inv s' fl (reverse l ++ ul).
Proof.
  revert s ul. induction l as [|i l IH]; intros s ul HI.
  - exists s. by split.
  - destruct (acquire_pop _ _ _ _ HI) as (s1 & Hs1 & HI1 & _).
    destruct (IH _ _ HI1) as (s' & Hs' & HI').
    exists s'. split.
    + simpl. rewrite (step_returns _ _ _ _ _ Hs1), (step_returns _ _ _ _ _ Hs').
      done.
    + by rewrite reverse_cons, <- app_assoc.
Qed.

Lemma filter_seqZ_least (P : Z -> Prop) `{forall x, Decision (P x)} (n : nat) a i l :
  filter P (seqZ a (Z.of_nat n)) = i :: l ->
  P i /\ forall j, a <= j < a + Z.of_nat n -> P j -> i <= j.
Proof.
  revert a. induction n as [|n IH]; intros a Hf; [done|].
  rewrite seqZ_cons in Hf by lia.
  replace (Z.pred (Z.of_nat (S n))) with (Z.of_nat n) in Hf by lia.
  rewrite filter_cons in Hf. destruct (decide (P a)) as [Ha|Ha].
  - injection Hf as -> _. split; [done|]. intros; lia.
  - destruct (IH _ Hf) as [Hi Hmin]. split; [done|].
    intros j Hj HPj. destruct (decide (j = a)) as [->|]; [done|].
    apply Hmin; [lia|done].
Qed.

(** C5: on a reachable state, [resize(newsize)] with [newsize < size()]
    returns and leaves every filled slot exactly as it was: same index, still
    filled, same [prev] and [next]; the head and the count of the filled list
    are unchanged.  When a filled slot exists, the highest one [pos] is not
    the last slot and the shrink is accepted
    ([empty_cnt - cnt >= 4]), the new size is
    [max (max newsize 1) (pos + 1)]. *)
Theorem downsize_keeps_filled_slots s n :
  reachable s -> 0 <= n < vsize (elem_vec s) ->
  exists s',
    resize n s = Returns tt s' /\
    (forall k, is_used (elem_vec s) k -> vget (elem_vec s') k = vget (elem_vec s) k) /\
    filled_head s' = filled_head s /\
    filled_cnt s' = filled_cnt s /\
    (forall pos,
       last_used (elem_vec s) pos -> pos <> vsize (elem_vec s) - 1 ->
       4 <= empty_cnt s - (vsize (elem_vec s) - 1 - pos) ->
       vsize (elem_vec s') = Z.max (Z.max n 1) (pos + 1)).
Proof.
  intros (fl & ul & HI)%reachable_inv Hn.
  destruct (resize_down_inv _ _ _ n HI Hn) as (s' & fl' & Hs' & HI' & Hfh & Hkeep).
  exists s'. split_and!; try done.
  - by rewrite (inv_filled_cnt _ _ _ HI), (inv_filled_cnt _ _ _ HI').
  - intros pos Hlast Hpos Hge.
    destruct (resize_down_trunc _ _ _ n pos HI Hn Hlast Hpos Hge)
      as (s0 & Hs0 & Hsz0 & _).
    assert (s0 = s') as -> by congruence. rewrite Hsz0.
    case_decide; lia.
Qed.

Lemma downsize_keeps_filled_slots_witness :
  exists s',
    resize 1 scattered = Returns tt s' /\
    (forall k, is_used (elem_vec scattered) k ->
               vget (elem_vec s') k = vget (elem_vec scattered) k) /\
    filled_head s' = filled_head scattered /\
    filled_cnt s' = filled_cnt scattered /\
    (forall pos,
       last_used (elem_vec scattered) pos ->
       pos <> vsize (elem_vec scattered) - 1 ->
       4 <= empty_cnt scattered - (vsize (elem_vec scattered) - 1 - pos) ->
       vsize (elem_vec s') = Z.max (Z.max 1 1) (pos + 1)).
Proof.
  apply (downsize_keeps_filled_slots scattered 1 scattered_reachable).
  by vm_compute.
Defined.

(** C6, as stated, fails: in the reachable state [scattered] the trailing
    run of empty slots has length 1, yet [resize(1)] truncates the vector
    from 7 to 6 slots. *)
Lemma short_trailing_run_still_shrinks :
  ~ (reachable scattered ->
     0 <= 1 < vsize (elem_vec scattered) ->
     trailing_free (elem_vec scattered) < 4 ->
     resize 1 scattered = Returns tt scattered).
Proof.
  intros H.
  specialize (H scattered_reachable ltac:(by vm_compute) ltac:(by vm_compute)).
  vm_compute in H. discriminate H.
Qed.

(** C6, amended: on a reachable state with at least one filled slot,
    [resize(newsize)] with [newsize < size()] changes nothing whenever the
    vector ends on a filled slot, or fewer than 4 of the empty slots lie
    outside the trailing run of empty slots. *)
Theorem downsize_noop_few_interior_free s n :
  reachable s -> 0 <= n < vsize (elem_vec s) -> 0 < filled_cnt s ->
  trailing_free (elem_vec s) = 0 \/
  empty_cnt s - trailing_free (elem_vec s) < 4 ->
  resize n s = Returns tt s.
Proof.
  intros (fl & ul & HI)%reachable_inv Hn Hfilled Hcase.
  destruct (inv_last_used _ _ _ HI Hfilled) as (pos & Hlast).
  pose proof (inv_size _ _ _ HI) as Hsz.
  pose proof (last_used_bound _ _ Hlast) as Hb.
  pose proof (trailing_le_empty_cnt _ _ _ _ HI Hlast) as Hcnt.
  pose proof (inv_count _ _ _ HI) as Hcount.
  pose proof (inv_empty_cnt _ _ _ HI) as Hec.
  pose proof max_size_bounds.
  rewrite (trailing_free_last_used _ _ Hlast) in Hcase.
  destruct (decide (pos = vsize (elem_vec s) - 1)) as [->|Hne].
  - apply resize_down_last; [done|lia|apply Hlast].
  - apply (resize_down_reject s n pos); [done|lia|done|done|lia|lia].
Qed.

Lemma downsize_noop_few_interior_free_witness :
  resize 1 used6 = Returns tt used6.
Proof.
  apply (downsize_noop_few_interior_free used6 1 used6_reachable);
    [by vm_compute|by vm_compute|right; by vm_compute].
Defined.

(** C7: on a reachable state whose highest filled slot [pos] is not the last
    slot, the backward scan of [resize(newsize)], [newsize < size()], stops
    at [pos] with [cnt] equal to the length of the trailing run of empty
    slots; the unsigned [empty_cnt - cnt] does not wrap; the call changes
    nothing if [empty_cnt - cnt < 4], and otherwise truncates the vector to
    [max (max newsize 1) (pos + 1)] slots, strictly fewer than before. *)
Theorem downsize_threshold s n pos :
  reachable s -> 0 <= n < vsize (elem_vec s) ->
  last_used (elem_vec s) pos -> pos <> vsize (elem_vec s) - 1 ->
  let cnt := vsize (elem_vec s) - 1 - pos in
  scan_back (Z.to_nat (vsize (elem_vec s) - 1)) 0 s = Returns (pos, cnt) s /\
  cnt = trailing_free (elem_vec s) /\
  wrap (empty_cnt s - cnt) = empty_cnt s - cnt /\
  (empty_cnt s - cnt < 4 -> resize n s = Returns tt s) /\
  (4 <= empty_cnt s - cnt ->
   exists s', resize n s = Returns tt s' /\
              vsize (elem_vec s') = Z.max (Z.max n 1) (pos + 1) /\
              vsize (elem_vec s') < vsize (elem_vec s)).
Proof.
  intros (fl & ul & HI)%reachable_inv Hn Hlast Hpos cnt.
  pose proof (inv_size _ _ _ HI) as Hsz.
  pose proof (last_used_bound _ _ Hlast) as Hb.
  pose proof (trailing_le_empty_cnt _ _ _ _ HI Hlast) as Hcnt.
  pose proof (inv_count _ _ _ HI) as Hcount.
  pose proof (inv_empty_cnt _ _ _ HI) as Hec.
  pose proof max_size_bounds. subst cnt.
  split_and!.
  - rewrite (scan_back_found s _ pos 0); [do 2 f_equal; lia|lia|apply Hlast| |lia|lia].
    intros j Hj. apply Hlast. lia.
  - by rewrite (trailing_free_last_used _ _ Hlast).
  - apply wrap_id. lia.
  - intros Hlt. apply (resize_down_reject s n pos); [done|lia|done|done|lia|lia].
  - intros Hge.
    destruct (resize_down_trunc _ _ _ n pos HI Hn Hlast Hpos Hge)
      as (s' & Hs' & Hsz' & _).
    exists s'. split; [done|]. rewrite Hsz'. case_decide; lia.
Qed.

Lemma scattered_last_used : last_used (elem_vec scattered) 5.
Proof.
  split; [by vm_compute|]. intros j Hj.
  assert (vsize (elem_vec scattered) = 7) as Hv by (by vm_compute).
  assert (j = 6) as -> by lia. by vm_compute.
Qed.

Lemma downsize_threshold_witness :
  scan_back (Z.to_nat (vsize (elem_vec scattered) - 1)) 0 scattered =
    Returns (5, vsize (elem_vec scattered) - 1 - 5) scattered /\
  vsize (elem_vec scattered) - 1 - 5 = trailing_free (elem_vec scattered) /\
  wrap (empty_cnt scattered - (vsize (elem_vec scattered) - 1 - 5)) =
    empty_cnt scattered - (vsize (elem_vec scattered) - 1 - 5) /\
  (empty_cnt scattered - (vsize (elem_vec scattered) - 1 - 5) < 4 ->
   resize 1 scattered = Returns tt scattered) /\
  (4 <= empty_cnt scattered - (vsize (elem_vec scattered) - 1 - 5) ->
   exists s', resize 1 scattered = Returns tt s' /\
              vsize (elem_vec s') = Z.max (Z.max 1 1) (5 + 1) /\
              vsize (elem_vec s') < vsize (elem_vec scattered)).
Proof.
  apply (downsize_threshold scattered 1 5 scattered_reachable);
    [by vm_compute|apply scattered_last_used|by vm_compute].
Defined.

(** C8, as stated, fails: [k] ranges over every positive number, but in
    the reachable state [scattered], of 7 slots, [resize(7 + max_size())]
    asks the vector for more than its maximal size, throws [length_error]
    and leaves the size at 7. *)
Lemma upsize_past_max_size_throws :
  ~ (reachable scattered -> 0 < max_size ->
     exists s',
       resize (vsize (elem_vec scattered) + max_size) scattered = Returns tt s' /\
       vsize (elem_vec s') = vsize (elem_vec scattered) + max_size).
Proof.
  intros H. pose proof max_size_bounds.
  destruct (H scattered_reachable ltac:(lia)) as (s' & Hs' & _).
  assert (vsize (elem_vec scattered) = 7) as Hv by (by vm_compute).
  rewrite resize_up_throws in Hs' by lia. discriminate Hs'.
Qed.

(** C8, amended: on a reachable state and for [k > 0], whenever
    [resize(size() + k)] returns, the size and the empty count have grown by
    exactly [k], the filled count and every filled slot are unchanged, the
    last new slot is the head of the empty list, and the next [k] calls of
    [acquire()] return the new indices from the highest down to the lowest;
    when [size() + k] is above the vector's maximal size the call throws
    [length_error] and changes nothing. *)
Theorem upsize_threads_new_slots s k :
  reachable s -> 0 < k ->
  (forall s',
     resize (vsize (elem_vec s) + k) s = Returns tt s' ->
     vsize (elem_vec s') = vsize (elem_vec s) + k /\
     empty_cnt s' = empty_cnt s + k /\
     filled_cnt s' = filled_cnt s /\
     (forall j, is_used (elem_vec s) j -> vget (elem_vec s') j = vget (elem_vec s) j) /\
     empty_head s' = vsize (elem_vec s) + k - 1 /\
     exists s'',
       acquire_n (Z.to_nat k) s' =
         Returns (reverse (seqZ (vsize (elem_vec s)) k)) s'') /\
  (max_size < vsize (elem_vec s) + k ->
   resize (vsize (elem_vec s) + k) s = Throws length_error s).
Proof.
  intros (fl & ul & HI)%reachable_inv Hk. split.
  2:{ intros Hbig. apply resize_up_throws; lia. }
  intros s' Hret.
  destruct (decide (vsize (elem_vec s) + k <= max_size)) as [Hmax|Hbig].
  2:{ rewrite resize_up_throws in Hret by lia. discriminate Hret. }
  destruct (resize_up _ _ _ (vsize (elem_vec s) + k) HI ltac:(lia))
    as (s0 & Hs0 & HI' & Hsz' & Hfh & Hflag & Hkeep).
  assert (s0 = s') as -> by congruence.
  replace (vsize (elem_vec s) + k - vsize (elem_vec s)) with k in HI' by lia.
  split_and!; try done.
  - rewrite (inv_empty_cnt _ _ _ HI), (inv_empty_cnt _ _ _ HI').
    rewrite length_app, length_reverse, length_seqZ. lia.
  - by rewrite (inv_filled_cnt _ _ _ HI), (inv_filled_cnt _ _ _ HI').
  - intros j (e & He & Hfl)%is_used_Some. apply Hkeep.
    pose proof (inv_cover _ _ _ HI _ _ He) as Hc. by rewrite Hfl in Hc.
  - pose proof (inv_free _ _ _ HI') as Hseg.
    replace k with (Z.of_nat (S (Z.to_nat (k - 1)))) in Hseg by lia.
    rewrite seqZ_S, reverse_snoc in Hseg. destruct Hseg as [-> _]. lia.
  - destruct (acquire_n_pops _ _ _ _ HI') as (s'' & Hs'' & _).
    rewrite length_reverse, length_seqZ in Hs''. eauto.
Qed.

Lemma upsize_threads_new_slots_witness :
  exists s',
    resize (vsize (elem_vec used6) + 3) used6 = Returns tt s' /\
    vsize (elem_vec s') = vsize (elem_vec used6) + 3 /\
    empty_cnt s' = empty_cnt used6 + 3 /\
    filled_cnt s' = filled_cnt used6 /\
    (forall j, is_used (elem_vec used6) j ->
               vget (elem_vec s') j = vget (elem_vec used6) j) /\
    empty_head s' = vsize (elem_vec used6) + 3 - 1 /\
    exists s'',
      acquire_n (Z.to_nat 3) s' =
        Returns (reverse (seqZ (vsize (elem_vec used6)) 3)) s''.
Proof.
  exists (state_of (resize (vsize (elem_vec used6) + 3) used6)).
  split; [by vm_compute|].
  apply (proj1 (upsize_threads_new_slots used6 3 used6_reachable ltac:(lia))).
  by vm_compute.
Defined.

(** C9: for an index [ind] of type [size_t], [is_slot_empty(ind)] throws
    [out_of_range] exactly when [ind >= size()]; otherwise it returns the
    [is_empty] flag of the slot; in both cases, and on any state, the state
    after the call is the state before it. *)
Theorem is_slot_empty_checks_bounds s ind :
  is_size_t ind ->
  ((exists s', is_slot_empty ind s = Throws out_of_range s') <->
   vsize (elem_vec s) <= ind) /\
  (ind < vsize (elem_vec s) ->
   exists e, vget (elem_vec s) ind = Some e /\
             is_slot_empty ind s = Returns (is_empty e) s) /\
  post (is_slot_empty ind s) = Some s.
Proof.
  intros [Hind _]. split_and!.
  - split.
    + intros (s' & Hs'). destruct (decide (vsize (elem_vec s) <= ind)); [done|].
      destruct (vget_lt (elem_vec s) ind ltac:(lia)) as (e & He).
      by rewrite (is_slot_empty_in _ _ _ He) in Hs'.
    + intros Hout. exists s. by apply is_slot_empty_out.
  - intros Hin. destruct (vget_lt (elem_vec s) ind ltac:(lia)) as (e & He).
    exists e. split; [done|]. by apply is_slot_empty_in.
  - by apply is_slot_empty_post.
Qed.

Lemma is_slot_empty_checks_bounds_witness :
  ((exists s', is_slot_empty 7 scattered = Throws out_of_range s') <->
   vsize (elem_vec scattered) <= 7) /\
  (7 < vsize (elem_vec scattered) ->
   exists e, vget (elem_vec scattered) 7 = Some e /\
             is_slot_empty 7 scattered = Returns (is_empty e) scattered) /\
  post (is_slot_empty 7 scattered) = Some scattered.
Proof.
  apply (is_slot_empty_checks_bounds scattered 7). unfold is_size_t. lia.
Defined.

(** C10: when a downsizing [resize] truncates the vector of a reachable
    state (a filled slot exists, the highest one is not the last slot and
    [empty_cnt - cnt >= 4]), the empty list of the result is the list of the
    empty slots of the new vector in ascending order of index, it is not
    empty, and the next [acquire()] returns the lowest-indexed empty slot.
    The order of release is lost: in [scattered], [acquire()] would return
    slot 3, and after [resize(1)] it returns slot 0 although slot 3 is
    still empty. *)
Theorem downsize_relinks_ascending :
  (forall s n pos,
     reachable s -> 0 <= n < vsize (elem_vec s) ->
     last_used (elem_vec s) pos -> pos <> vsize (elem_vec s) - 1 ->
     4 <= empty_cnt s - (vsize (elem_vec s) - 1 - pos) ->
     exists s' i s'',
       resize n s = Returns tt s' /\
       vsize (elem_vec s') < vsize (elem_vec s) /\
       seg (elem_vec s') true NULL_INDEX (empty_head s')
         (filter (is_free (elem_vec s')) (seqZ 0 (vsize (elem_vec s'))))
         NULL_INDEX /\
       acquire s' = Returns i s'' /\
       is_free (elem_vec s') i /\
       (forall j, is_free (elem_vec s') j -> i <= j)) /\
  (exists s',
     acquire scattered = Returns 3 (state_of (acquire scattered)) /\
     resize 1 scattered = Returns tt s' /\
     is_free (elem_vec s') 3 /\
     acquire s' = Returns 0 (state_of (acquire s'))).
Proof.
  split.
  - intros s n pos (fl & ul & HI)%reachable_inv Hn Hlast Hpos Hge.
    pose proof (inv_size _ _ _ HI) as Hsz.
    pose proof (last_used_bound _ _ Hlast) as Hb.
    destruct (resize_down_trunc _ _ _ n pos HI Hn Hlast Hpos Hge)
      as (s' & Hs' & Hsz' & HI' & _).
    pose proof (inv_count _ _ _ HI) as Hcount.
    pose proof (inv_count _ _ _ HI') as Hcount'.
    pose proof (inv_empty_cnt _ _ _ HI) as Hec.
    assert (vsize (elem_vec s') < vsize (elem_vec s)) as Hless.
    { rewrite Hsz'. case_decide; lia. }
    destruct (filter (is_free (elem_vec s')) (seqZ 0 (vsize (elem_vec s'))))
      as [|i l] eqn:Hl.
    { simpl in Hcount'. rewrite Hsz' in Hcount'. lia. }
    destruct (acquire_pop _ _ _ _ HI') as (s'' & Hs'' & _).
    exists s', i, s''. split_and!; try done.
    + rewrite Hl. apply (inv_free _ _ _ HI').
    + pose proof (inv_size _ _ _ HI') as Hsz''.
      replace (vsize (elem_vec s')) with (Z.of_nat (Z.to_nat (vsize (elem_vec s'))))
        in Hl by lia.
      by destruct (filter_seqZ_least _ _ _ _ _ Hl).
    + intros j Hj. pose proof (inv_size _ _ _ HI') as Hsz''.
      pose proof Hj as (e & He%vget_Some & _)%is_free_Some.
      replace (vsize (elem_vec s')) with (Z.of_nat (Z.to_nat (vsize (elem_vec s'))))
        in Hl by lia.
      destruct (filter_seqZ_least _ _ _ _ _ Hl) as [_ Hmin]. apply Hmin; [lia|done].
  - eexists. split_and!; [by vm_compute|by vm_compute|by vm_compute|by vm_compute].
Qed.

Lemma downsize_relinks_ascending_witness :
  exists s' i s'',
    resize 1 scattered = Returns tt s' /\
    vsize (elem_vec s') < vsize (elem_vec scattered) /\
    seg (elem_vec s') true NULL_INDEX (empty_head s')
      (filter (is_free (elem_vec s')) (seqZ 0 (vsize (elem_vec s'))))
      NULL_INDEX /\
    acquire s' = Returns i s'' /\
    is_free (elem_vec s') i /\
    (forall j, is_free (elem_vec s') j -> i <= j).
Proof.
  apply (proj1 downsize_relinks_ascending scattered 1 5 scattered_reachable);
    [by vm_compute|apply scattered_last_used|by vm_compute|by vm_compute].
Defined.

(** * Further properties of the allocator *)

(** ** What a list over given slots determines *)

Lemma seg_agree v v' flag p h h' l t i :
  seg v flag p h l t -> seg v' flag p h' l t -> i ∈ l -> vget v i = vget v' i.
Proof.
  revert p h h'. induction l as [|a l IH]; intros p h h' Hs Hs' Hi.
  - by apply elem_of_nil in Hi.
  - destruct Hs as (-> & e & He & Hf & Hp & Hs).
    destruct Hs' as (-> & e' & He' & Hf' & Hp' & Hs').
    apply elem_of_cons in Hi as [->|Hi]; [|by eapply IH].
    rewrite He, He'. f_equal.
    assert (next e = next e') as Hn.
    { destruct l; simpl in *; [congruence|]. destruct Hs as [-> _].
      by destruct Hs' as [-> _]. }
    destruct e, e'; simpl in *. congruence.
Qed.

Lemma seg_range_slots v flag p a k t j :
  seg v flag p a (seqZ a (Z.of_nat (S k))) t ->
  a <= j < a + Z.of_nat (S k) ->
  vget v j = Some (mkElem flag (if decide (j = a) then p else j - 1)
                     (if decide (j = a + Z.of_nat k) then t else j + 1)).
Proof.
  revert a p. induction k as [|k IH]; intros a p Hs Hj.
  - rewrite seqZ_cons in Hs by lia.
    replace (Z.pred (Z.of_nat 1)) with 0 in Hs by lia.
    destruct Hs as (_ & e & He & Hf & Hp & Hn). simpl in Hn.
    assert (j = a) as -> by lia. rewrite !decide_True by lia.
    rewrite He. destruct e; simpl in *. congruence.
  - rewrite seqZ_cons in Hs by lia.
    replace (Z.pred (Z.of_nat (S (S k)))) with (Z.of_nat (S k)) in Hs by lia.
    destruct Hs as (_ & e & He & Hf & Hp & Hs).
    pose proof Hs as Hhd. rewrite seqZ_cons in Hhd by lia. destruct Hhd as [Hnext _].
    destruct (decide (j = a)) as [->|Hja].
    + rewrite decide_False by lia. rewrite He. destruct e; simpl in *.
      f_equal. f_equal; [done..|lia].
    + rewrite Hnext in Hs. rewrite (IH (Z.succ a) a Hs) by lia.
      f_equal. f_equal; repeat case_decide; lia.
Qed.

(** The state [initialize] leaves is determined by the size alone. *)
Lemma fresh_state_unique s s' n :
  Inv s (seqZ 0 n) [] -> Inv s' (seqZ 0 n) [] ->
  vsize (elem_vec s) = n -> vsize (elem_vec s') = n -> s = s'.
Proof.
  intros HI HI' Hn Hn'. pose proof (inv_size _ _ _ HI) as Hsz.
  assert (elem_vec s = elem_vec s') as Hv.
  { apply list_eq. intros i. destruct (decide (Z.of_nat i < n)) as [Hi|Hi].
    - rewrite <- !vget_nat.
      eapply seg_agree; [apply (inv_free _ _ _ HI)|apply (inv_free _ _ _ HI')|].
      apply elem_of_seqZ. lia.
    - rewrite vsize_length in Hn, Hn'. rewrite !lookup_ge_None_2; [done|lia|lia]. }
  assert (empty_head s = empty_head s') as Heh.
  { eapply seg_same_head; [apply (inv_free _ _ _ HI)|apply (inv_free _ _ _ HI')]. }
  pose proof (inv_used _ _ _ HI) as Hfh. pose proof (inv_used _ _ _ HI') as Hfh'.
  pose proof (inv_empty_cnt _ _ _ HI) as Hec. pose proof (inv_empty_cnt _ _ _ HI') as Hec'.
  pose proof (inv_filled_cnt _ _ _ HI) as Hfc.
  pose proof (inv_filled_cnt _ _ _ HI') as Hfc'.
  destruct s, s'; simpl in *. congruence.
Qed.

Lemma inv_all_free s n ul j :
  Inv s (seqZ 0 n) ul -> 0 <= j < n -> is_free (elem_vec s) j.
Proof.
  intros HI Hj. apply is_free_Some.
  eapply seg_lookup; [apply (inv_free _ _ _ HI)|]. apply elem_of_seqZ. lia.
Qed.

(** X1: whenever [SlabManager(n)], for [n] of type [size_t], returns, it has
    built [max(n, 1)] slots, all empty and linked in ascending order: slot
    [j] has [prev = j - 1] ([NULL_INDEX] for slot 0) and [next = j + 1]
    ([NULL_INDEX] for the last slot); the empty list starts at slot 0, the
    filled list is empty, [empty_count() = size()] and
    [filled_count() = 0]. *)
Theorem construct_links_ascending n s :
  is_size_t n -> construct n = Returns tt s ->
  vsize (elem_vec s) = Z.max n 1 /\
  empty_head s = 0 /\ filled_head s = NULL_INDEX /\
  empty_cnt s = Z.max n 1 /\ filled_cnt s = 0 /\
  forall j, 0 <= j < Z.max n 1 ->
    vget (elem_vec s) j =
      Some (mkElem true (if decide (j = 0) then NULL_INDEX else j - 1)
              (if decide (j = Z.max n 1 - 1) then NULL_INDEX else j + 1)).
Proof.
  intros [Hn _] Hret.
  assert ((if decide (0 < n) then n else 1) = Z.max n 1) as Hn' by (case_decide; lia).
  destruct (decide (Z.max n 1 <= max_size)) as [Hle|Hbig].
  2:{ unfold construct in Hret. rewrite bind_eq in Hret. unfold vec_resize in Hret.
      by rewrite decide_True in Hret by lia. }
  destruct (construct_spec n) as (s0 & Hs0 & HI & Hsz); [lia|]. rewrite Hn' in *.
  assert (s0 = s) as -> by congruence.
  pose proof (inv_free _ _ _ HI) as Hf.
  replace (Z.max n 1) with (Z.of_nat (S (Z.to_nat (Z.max n 1 - 1)))) in Hf by lia.
  assert (empty_head s = 0) as Heh.
  { pose proof Hf as Hf'. rewrite seqZ_cons in Hf' by lia. by destruct Hf' as [-> _]. }
  rewrite Heh in Hf.
  split_and!; try done.
  - apply (inv_used _ _ _ HI).
  - rewrite (inv_empty_cnt _ _ _ HI), length_seqZ. lia.
  - by rewrite (inv_filled_cnt _ _ _ HI).
  - intros j Hj. rewrite (seg_range_slots _ _ _ _ _ _ j Hf) by lia.
    do 2 f_equal. repeat case_decide; lia.
Qed.

Lemma construct_links_ascending_witness :
  exists s,
    construct 0 = Returns tt s /\
    vsize (elem_vec s) = Z.max 0 1 /\
    empty_head s = 0 /\ filled_head s = NULL_INDEX /\
    empty_cnt s = Z.max 0 1 /\ filled_cnt s = 0 /\
    forall j, 0 <= j < Z.max 0 1 ->
      vget (elem_vec s) j =
        Some (mkElem true (if decide (j = 0) then NULL_INDEX else j - 1)
                (if decide (j = Z.max 0 1 - 1) then NULL_INDEX else j + 1)).
Proof.
  exists (state_of (construct 0)). split; [by vm_compute|].
  apply (construct_links_ascending 0); [unfold is_size_t; lia|by vm_compute].
Defined.

(** X2: on a freshly constructed allocator of [m = max(n, 1)] slots the first
    [m] calls of [acquire()] return [0, 1, ..., m - 1] in this order, without
    growing the vector, and leave no empty slot. *)
Theorem fresh_acquires_ascend n s :
  is_size_t n -> construct n = Returns tt s ->
  exists s',
    acquire_n (Z.to_nat (Z.max n 1)) s = Returns (seqZ 0 (Z.max n 1)) s' /\
    vsize (elem_vec s') = vsize (elem_vec s) /\
    empty_cnt s' = 0 /\ filled_cnt s' = Z.max n 1.
Proof.
  intros [Hn _] Hs.
  assert ((if decide (0 < n) then n else 1) = Z.max n 1) as Hn' by (case_decide; lia).
  destruct (decide (Z.max n 1 <= max_size)) as [Hle|Hbig].
  2:{ unfold construct in Hs. rewrite bind_eq in Hs. unfold vec_resize in Hs.
      by rewrite decide_True in Hs by lia. }
  destruct (construct_spec n) as (s0 & Hs0 & HI & Hsz); [lia|]. rewrite Hn' in *.
  assert (s0 = s) as -> by congruence.
  rewrite <- (app_nil_r (seqZ 0 (Z.max n 1))) in HI.
  destruct (acquire_n_pops _ _ _ _ HI) as (s' & Hs' & HI').
  rewrite length_seqZ in Hs'. exists s'. split_and!; [done| | |].
  - pose proof (inv_count _ _ _ HI') as Hc. pose proof (inv_count _ _ _ HI) as Hc0.
    rewrite length_app, length_reverse, length_seqZ in Hc.
    rewrite !length_app, length_seqZ in Hc0. simpl in *. lia.
  - by rewrite (inv_empty_cnt _ _ _ HI').
  - rewrite (inv_filled_cnt _ _ _ HI'), length_app, length_reverse, length_seqZ.
    simpl. lia.
Qed.

Lemma fresh_acquires_ascend_witness :
  exists s',
    acquire_n (Z.to_nat (Z.max 7 1)) fresh7 = Returns (seqZ 0 (Z.max 7 1)) s' /\
    vsize (elem_vec s') = vsize (elem_vec fresh7) /\
    empty_cnt s' = 0 /\ filled_cnt s' = Z.max 7 1.
Proof.
  apply (fresh_acquires_ascend 7 fresh7); [unfold is_size_t; lia|by vm_compute].
Defined.

(** X3: on a reachable state [clear()] returns and leaves exactly the state a
    fresh [SlabManager(size())] has: same size, every slot empty, no filled
    slot, [empty_count() = size()]. *)
Theorem clear_restores_fresh_state s :
  reachable s ->
  exists s',
    clear s = Returns tt s' /\
    construct (vsize (elem_vec s)) = Returns tt s' /\
    vsize (elem_vec s') = vsize (elem_vec s) /\
    empty_cnt s' = vsize (elem_vec s) /\ filled_cnt s' = 0 /\
    forall j, 0 <= j < vsize (elem_vec s) -> is_slot_empty j s' = Returns true s'.
Proof.
  intros (fl & ul & HI)%reachable_inv. pose proof (inv_size _ _ _ HI) as Hsz.
  destruct (clear_spec _ _ _ HI) as (s' & Hs' & HI' & Hsz').
  destruct (construct_spec (vsize (elem_vec s))) as (s0 & Hs0 & HI0 & Hsz0).
  { case_decide; lia. }
  rewrite decide_True in HI0, Hsz0 by lia.
  assert (s0 = s') as -> by (by eapply fresh_state_unique).
  exists s'. split_and!; try done.
  - rewrite (inv_empty_cnt _ _ _ HI'), length_seqZ. lia.
  - by rewrite (inv_filled_cnt _ _ _ HI').
  - intros j Hj. eapply inv_free_slot; [done|]. apply elem_of_seqZ. lia.
Qed.

Lemma clear_restores_fresh_state_witness :
  exists s',
    clear scattered = Returns tt s' /\
    construct (vsize (elem_vec scattered)) = Returns tt s' /\
    vsize (elem_vec s') = vsize (elem_vec scattered) /\
    empty_cnt s' = vsize (elem_vec scattered) /\ filled_cnt s' = 0 /\
    forall j, 0 <= j < vsize (elem_vec scattered) ->
              is_slot_empty j s' = Returns true s'.
Proof. apply (clear_restores_fresh_state scattered scattered_reachable). Defined.

(** ** Memory safety and structure of reachable states *)

Lemma seg_next_back v flag p h l t i e :
  seg v flag p h l t -> i ∈ l -> vget v i = Some e -> next e <> t ->
  exists e', vget v (next e) = Some e' /\ prev e' = i /\ is_empty e' = flag.
Proof.
  revert p h. induction l as [|a l IH]; intros p h Hs Hi He Hn.
  - by apply elem_of_nil in Hi.
  - destruct Hs as (-> & e0 & He0 & Hf & Hp & Hs).
    apply elem_of_cons in Hi as [->|Hi]; [|by eapply IH].
    assert (e0 = e) as -> by congruence.
    destruct l as [|b l]; [done|].
    destruct Hs as (-> & e' & He' & Hf' & Hp' & _). eauto.
Qed.

(** X4: no public call has undefined behaviour on a reachable state: every
    [elem_vec[...]] access of [acquire], [give_back], [is_slot_empty], [clear],
    [resize], [resize_to_min] is in bounds, so the call returns or throws, and
    the state it leaves is reachable again. *)
Theorem calls_never_undefined s c :
  reachable s -> call_ok c ->
  exists s', exec c s = Some s' /\ reachable s'.
Proof.
  intros Hr Hok. destruct (reachable_defined s c Hr Hok) as (s' & Hs').
  exists s'. split; [done|]. by eapply reach_call.
Qed.

Lemma calls_never_undefined_witness :
  exists s', exec (Resize 1) scattered = Some s' /\ reachable s'.
Proof.
  apply (calls_never_undefined scattered (Resize 1) scattered_reachable).
  unfold call_ok, is_size_t. lia.
Defined.

(** X5: in every reachable state the vector has at least one slot and at
    most [max_size]; each list head is [NULL_INDEX] or the index of an
    in-bounds slot with the flag of its list and [prev == NULL_INDEX]; and a
    head is [NULL_INDEX] exactly when the count of its list is zero. *)
Theorem heads_are_well_formed s :
  reachable s ->
  1 <= vsize (elem_vec s) <= max_size /\
  (empty_head s = NULL_INDEX \/
   exists e, vget (elem_vec s) (empty_head s) = Some e /\
             is_empty e = true /\ prev e = NULL_INDEX) /\
  (filled_head s = NULL_INDEX \/
   exists e, vget (elem_vec s) (filled_head s) = Some e /\
             is_empty e = false /\ prev e = NULL_INDEX) /\
  (empty_head s = NULL_INDEX <-> empty_cnt s = 0) /\
  (filled_head s = NULL_INDEX <-> filled_cnt s = 0).
Proof.
  intros (fl & ul & HI)%reachable_inv.
  pose proof (inv_size _ _ _ HI) as Hsz.
  pose proof (inv_free _ _ _ HI) as Hf. pose proof (inv_used _ _ _ HI) as Hu.
  rewrite (inv_empty_cnt _ _ _ HI), (inv_filled_cnt _ _ _ HI).
  split; [done|].
  assert (forall flag h l,
    seg (elem_vec s) flag NULL_INDEX h l NULL_INDEX ->
    (h = NULL_INDEX \/
     exists e, vget (elem_vec s) h = Some e /\ is_empty e = flag /\
               prev e = NULL_INDEX) /\
    (h = NULL_INDEX <-> Z.of_nat (length l) = 0)) as Hhead.
  { intros flag h l Hs. destruct l as [|a l].
    - simpl in Hs. split; [by left|done].
    - pose proof (seg_not_null _ _ _ _ _ _ _ (proj2 Hsz) Hs) as Hne.
      destruct Hs as (-> & e & He & Hfl & Hp & _).
      split; [right; eauto|]. simpl length. split; [done|lia]. }
  destruct (Hhead _ _ _ Hf) as [? ?]. destruct (Hhead _ _ _ Hu) as [? ?].
  done.
Qed.

Lemma heads_are_well_formed_witness :
  1 <= vsize (elem_vec scattered) <= max_size /\
  (empty_head scattered = NULL_INDEX \/
   exists e, vget (elem_vec scattered) (empty_head scattered) = Some e /\
             is_empty e = true /\ prev e = NULL_INDEX) /\
  (filled_head scattered = NULL_INDEX \/
   exists e, vget (elem_vec scattered) (filled_head scattered) = Some e /\
             is_empty e = false /\ prev e = NULL_INDEX) /\
  (empty_head scattered = NULL_INDEX <-> empty_cnt scattered = 0) /\
  (filled_head scattered = NULL_INDEX <-> filled_cnt scattered = 0).
Proof. apply (heads_are_well_formed scattered scattered_reachable). Defined.

(** X6: the cached counters are exact in every reachable state:
    [empty_count()] is the number of slots flagged empty and [filled_count()]
    the number of slots flagged filled. *)
Theorem counters_count_flags s :
  reachable s ->
  empty_cnt s =
    Z.of_nat (length (filter (is_free (elem_vec s)) (seqZ 0 (vsize (elem_vec s))))) /\
  filled_cnt s =
    Z.of_nat (length (filter (is_used (elem_vec s)) (seqZ 0 (vsize (elem_vec s))))).
Proof.
  intros (fl & ul & HI)%reachable_inv.
  pose proof (inv_cover _ _ _ HI) as Hc.
  rewrite (inv_empty_cnt _ _ _ HI), (inv_filled_cnt _ _ _ HI).
  split; f_equal; apply Permutation_length, NoDup_Permutation.
  - apply (inv_free_nodup _ _ _ HI).
  - apply NoDup_filter, NoDup_seqZ.
  - intros k. rewrite list_elem_of_filter, elem_of_seqZ, is_free_Some. split.
    + intros Hk. destruct (seg_lookup _ _ _ _ _ _ k (inv_free _ _ _ HI) Hk)
        as (e & He & Hfl). pose proof (vget_Some _ _ _ He). split; [eauto|lia].
    + intros [(e & He & Hfl) _]. specialize (Hc k e He). by rewrite Hfl in Hc.
  - apply (inv_used_nodup _ _ _ HI).
  - apply NoDup_filter, NoDup_seqZ.
  - intros k. rewrite list_elem_of_filter, elem_of_seqZ, is_used_Some. split.
    + intros Hk. destruct (seg_lookup _ _ _ _ _ _ k (inv_used _ _ _ HI) Hk)
        as (e & He & Hfl). pose proof (vget_Some _ _ _ He). split; [eauto|lia].
    + intros [(e & He & Hfl) _]. specialize (Hc k e He). by rewrite Hfl in Hc.
Qed.

Lemma counters_count_flags_witness :
  empty_cnt scattered =
    Z.of_nat (length (filter (is_free (elem_vec scattered))
                        (seqZ 0 (vsize (elem_vec scattered))))) /\
  filled_cnt scattered =
    Z.of_nat (length (filter (is_used (elem_vec scattered))
                        (seqZ 0 (vsize (elem_vec scattered))))).
Proof. apply (counters_count_flags scattered scattered_reachable). Defined.

(** X7: the links of a reachable state are consistent in both directions:
    for every slot [i], if [next] of [i] is not [NULL_INDEX] then it is an
    in-bounds slot with the same flag whose [prev] is [i]. *)
Theorem next_links_back s i e :
  reachable s -> vget (elem_vec s) i = Some e -> next e <> NULL_INDEX ->
  exists e', vget (elem_vec s) (next e) = Some e' /\
             prev e' = i /\ is_empty e' = is_empty e.
Proof.
  intros (fl & ul & HI)%reachable_inv He Hn.
  pose proof (inv_cover _ _ _ HI _ _ He) as Hc.
  destruct (is_empty e) eqn:Hfl.
  - eapply seg_next_back; [apply (inv_free _ _ _ HI)|done..].
  - eapply seg_next_back; [apply (inv_used _ _ _ HI)|done..].
Qed.

Lemma next_links_back_witness :
  exists e', vget (elem_vec scattered) (next (mkElem true NULL_INDEX 2)) = Some e' /\
             prev e' = 3 /\ is_empty e' = is_empty (mkElem true NULL_INDEX 2).
Proof.
  apply (next_links_back scattered 3 (mkElem true NULL_INDEX 2) scattered_reachable);
    by vm_compute.
Defined.

(** ** Acquired indices *)

Lemma acquire_returns_inv s fl ul i s1 :
  Inv s fl ul -> acquire s = Returns i s1 ->
  exists fl', Inv s1 fl' (i :: ul) /\
    vsize (elem_vec s) <= vsize (elem_vec s1) /\
    (forall j, j <> i -> 0 <= j < vsize (elem_vec s) ->
       is_empty <$> vget (elem_vec s1) j = is_empty <$> vget (elem_vec s) j).
Proof.
  intros HI Hs1. destruct fl as [|i0 fl].
  - destruct (decide (vsize (elem_vec s) < max_size)) as [Hlt|Hfull].
    + destruct (acquire_grow _ _ HI Hlt) as (s' & Hs' & HI' & Hsz & Hflag).
      rewrite Hs' in Hs1. injection Hs1 as <- <-.
      exists []. split_and!; [done|lia|]. intros j Hj Hb. apply Hflag. lia.
    + rewrite (acquire_full _ _ HI) in Hs1 by lia. done.
  - destruct (acquire_pop _ _ _ _ HI) as (s' & Hs' & HI' & Hsz & Hflag & _).
    rewrite Hs' in Hs1. injection Hs1 as <- <-.
    exists fl. split_and!; [done|lia|]. intros j Hj _. by apply Hflag.
Qed.

Lemma acquire_n_S_inv k s l s' :
  acquire_n (S k) s = Returns l s' ->
  exists i s1 l', acquire s = Returns i s1 /\ acquire_n k s1 = Returns l' s' /\
                  l = i :: l'.
Proof.
  simpl. rewrite bind_eq. destruct (acquire s) as [i s1| |]; [|done..].
  rewrite bind_eq. destruct (acquire_n k s1) as [l' s2| |] eqn:Hk; [|done..].
  intros [= <- <-]. by exists i, s1, l'.
Qed.

Lemma acquire_n_returns_inv k s fl ul l s' :
  Inv s fl ul -> acquire_n k s = Returns l s' ->
  exists fl', Inv s' fl' (reverse l ++ ul).
Proof.
  revert s fl ul l. induction k as [|k IH]; intros s fl ul l HI Hl.
  - injection Hl as <- <-. eauto.
  - apply acquire_n_S_inv in Hl as (i & s1 & l' & Hs1 & Hl' & ->).
    destruct (acquire_returns_inv _ _ _ _ _ HI Hs1) as (fl1 & HI1 & _).
    destruct (IH _ _ _ _ HI1 Hl') as (fl' & HI').
    exists fl'. by rewrite reverse_cons, <- app_assoc.
Qed.

(** X8: the indices returned by any run of [acquire()] calls on a reachable
    state are pairwise distinct, none of them was filled before the run,
    all of them are filled after it, and none is [NULL_INDEX]. *)
Theorem acquired_indices_are_fresh s k l s' :
  reachable s -> acquire_n k s = Returns l s' ->
  NoDup l /\
  forall i, i ∈ l ->
    ~ is_used (elem_vec s) i /\ is_used (elem_vec s') i /\ i <> NULL_INDEX.
Proof.
  intros (fl & ul & HI)%reachable_inv Hl.
  destruct (acquire_n_returns_inv _ _ _ _ _ _ HI Hl) as (fl' & HI').
  pose proof (inv_used_nodup _ _ _ HI') as (Hnd & Hdisj & _)%NoDup_app.
  split; [by rewrite <- (reverse_Permutation l)|].
  intros i Hi. apply elem_of_reverse in Hi as Hi'. split_and!.
  - intros (e & He & Hfl)%is_used_Some.
    pose proof (inv_cover _ _ _ HI _ _ He) as Hc. rewrite Hfl in Hc.
    by apply (Hdisj i).
  - apply is_used_Some. eapply seg_lookup; [apply (inv_used _ _ _ HI')|].
    apply elem_of_app. by left.
  - eapply bound_not_null; [apply (inv_size _ _ _ HI')|].
    eapply seg_elem_bound; [apply (inv_used _ _ _ HI')|].
    apply elem_of_app. by left.
Qed.

Lemma acquired_indices_are_fresh_witness :
  NoDup [3; 2; 1; 0; 6; 7] /\
  forall i, i ∈ [3; 2; 1; 0; 6; 7] ->
    ~ is_used (elem_vec scattered) i /\
    is_used (elem_vec (state_of (acquire_n 6 scattered))) i /\
    i <> NULL_INDEX.
Proof.
  apply (acquired_indices_are_fresh scattered 6 _ _ scattered_reachable).
  by vm_compute.
Defined.

(** ** Exceptions *)



(** X10: [give_back(ind)] with [ind >= size()] throws [out_of_range] (the
    bounds check of [is_slot_empty] it starts with) before touching
    anything, on any state. *)
Theorem give_back_out_of_range s ind :
  vsize (elem_vec s) <= ind -> give_back ind s = Throws out_of_range s.
Proof.
  intros Hout. unfold give_back.
  rewrite bind_eq. unfold is_slot_empty. rewrite step_vec_size.
  by rewrite decide_True.
Qed.

Lemma give_back_out_of_range_witness :
  give_back 7 scattered = Throws out_of_range scattered.
Proof. apply (give_back_out_of_range scattered 7). by vm_compute. Defined.

(** ** Composition of calls *)

(** X11: releasing a filled slot of a reachable state and acquiring again
    hands the same index back: [give_back(i)] then [acquire()] returns [i],
    and size, both counters, the head of the empty list and the flag of
    every slot are as before the two calls; [i] is now the head of the
    filled list. *)
Theorem release_then_acquire_same_index s i :
  reachable s -> is_slot_empty i s = Returns false s ->
  exists s1 s2,
    give_back i s = Returns tt s1 /\ acquire s1 = Returns i s2 /\
    vsize (elem_vec s2) = vsize (elem_vec s) /\
    empty_cnt s2 = empty_cnt s /\ filled_cnt s2 = filled_cnt s /\
    empty_head s2 = empty_head s /\ filled_head s2 = i /\
    forall j, is_empty <$> vget (elem_vec s2) j = is_empty <$> vget (elem_vec s) j.
Proof.
  intros (fl & ul & HI)%reachable_inv Hused.
  pose proof (inv_slot_used _ _ _ _ _ HI Hused) as Hin.
  apply is_slot_empty_returns in Hused as (e & He & Hfl).
  apply list_elem_of_split in Hin as (l1 & l2 & ->).
  destruct (give_back_used _ _ _ _ _ HI) as (s1 & Hs1 & HI1 & Hsz1 & Hflag1).
  destruct (acquire_pop _ _ _ _ HI1) as (s2 & Hs2 & HI2 & Hsz2 & Hflag2 & _).
  exists s1, s2. split_and!; try done.
  - congruence.
  - by rewrite (inv_empty_cnt _ _ _ HI), (inv_empty_cnt _ _ _ HI2).
  - rewrite (inv_filled_cnt _ _ _ HI), (inv_filled_cnt _ _ _ HI2).
    rewrite !length_app. simpl length. rewrite length_app. lia.
  - eapply seg_same_head; [apply (inv_free _ _ _ HI2)|apply (inv_free _ _ _ HI)].
  - by destruct (inv_used _ _ _ HI2) as [-> _].
  - intros j. destruct (decide (j = i)) as [->|Hj].
    + destruct (seg_lookup _ _ _ _ _ _ i (inv_used _ _ _ HI2)) as (e2 & He2 & Hfl2);
        [left|]. rewrite He2, He. simpl. congruence.
    + by rewrite Hflag2, Hflag1.
Qed.

Lemma release_then_acquire_same_index_witness :
  exists s1 s2,
    give_back 4 scattered = Returns tt s1 /\ acquire s1 = Returns 4 s2 /\
    vsize (elem_vec s2) = vsize (elem_vec scattered) /\
    empty_cnt s2 = empty_cnt scattered /\ filled_cnt s2 = filled_cnt scattered /\
    empty_head s2 = empty_head scattered /\ filled_head s2 = 4 /\
    forall j, is_empty <$> vget (elem_vec s2) j =
              is_empty <$> vget (elem_vec scattered) j.
Proof.
  apply (release_then_acquire_same_index scattered 4 scattered_reachable).
  by vm_compute.
Defined.

Lemma is_slot_empty_flag s s' j b :
  is_empty <$> vget (elem_vec s') j = is_empty <$> vget (elem_vec s) j ->
  is_slot_empty j s = Returns b s -> is_slot_empty j s' = Returns b s'.
Proof.
  intros Hflag (e & He & Hfl)%is_slot_empty_returns.
  rewrite He in Hflag. destruct (vget (elem_vec s') j) as [e'|] eqn:He'; [|done].
  injection Hflag as Hflag. rewrite <- Hfl, <- Hflag. by apply is_slot_empty_in.
Qed.

(** X12: [acquire()] and [give_back(ind)] change the state of one slot only:
    on a reachable state, whatever [is_slot_empty(j)] returned before a
    returning call it returns after it, for every [j] other than the index
    acquired or given back. *)
Theorem other_slots_keep_their_state s :
  reachable s ->
  (forall i s', acquire s = Returns i s' ->
     forall j b, j <> i -> is_slot_empty j s = Returns b s ->
                 is_slot_empty j s' = Returns b s') /\
  (forall ind s', give_back ind s = Returns tt s' ->
     forall j b, j <> ind -> is_slot_empty j s = Returns b s ->
                 is_slot_empty j s' = Returns b s').
Proof.
  intros (fl & ul & HI)%reachable_inv. split.
  - intros i s' Hs' j b Hj Hb.
    destruct (acquire_returns_inv _ _ _ _ _ HI Hs') as (fl' & _ & _ & Hflag).
    eapply is_slot_empty_flag; [|done]. apply Hflag; [done|].
    apply is_slot_empty_returns in Hb as (e & He%vget_Some & _). done.
  - intros ind s' Hs' j b Hj Hb.
    assert (is_slot_empty ind s = Returns false s) as Hused.
    { unfold give_back in Hs'. rewrite bind_eq in Hs'.
      destruct (is_slot_empty ind s) as [[|] s0| |] eqn:Hie; [done| |done..].
      apply is_slot_empty_returns in Hie as Hie'. destruct Hie' as (e & He & Hfl).
      rewrite (is_slot_empty_in _ _ _ He), Hfl in Hie. by rewrite Hie. }
    pose proof (inv_slot_used _ _ _ _ _ HI Hused) as Hin.
    apply list_elem_of_split in Hin as (l1 & l2 & ->).
    destruct (give_back_used _ _ _ _ _ HI) as (s0 & Hs0 & _ & _ & Hflag).
    assert (s0 = s') as -> by congruence.
    eapply is_slot_empty_flag; [|done]. by apply Hflag.
Qed.

Lemma other_slots_keep_their_state_witness :
  (forall i s', acquire scattered = Returns i s' ->
     forall j b, j <> i -> is_slot_empty j scattered = Returns b scattered ->
                 is_slot_empty j s' = Returns b s') /\
  (forall ind s', give_back ind scattered = Returns tt s' ->
     forall j b, j <> ind -> is_slot_empty j scattered = Returns b scattered ->
                 is_slot_empty j s' = Returns b s').
Proof. apply (other_slots_keep_their_state scattered scattered_reachable). Defined.

(** ** [resize_to_min] *)

Lemma inv_no_filled_all_free s fl ul j :
  Inv s fl ul -> filled_cnt s = 0 -> 0 <= j < vsize (elem_vec s) ->
  is_free (elem_vec s) j.
Proof.
  intros HI Hz Hj. rewrite (inv_filled_cnt _ _ _ HI) in Hz.
  destruct ul; [|simpl in Hz; lia].
  destruct (vget_lt _ _ Hj) as (e & He). apply is_free_Some. exists e. split; [done|].
  pose proof (inv_cover _ _ _ HI _ _ He) as Hc.
  destruct (is_empty e); [done|]. by apply elem_of_nil in Hc.
Qed.

(** X13: [resize_to_min()] trims all or nothing.  On a reachable state it
    returns; with no filled slot the vector shrinks to one empty slot; with
    a highest filled slot [pos] the state is unchanged when [pos] is the
    last slot or fewer than 4 empty slots lie before [pos], and otherwise
    the vector is cut to exactly [pos + 1] slots, keeping no trailing empty
    slot at all. *)
Theorem resize_to_min_all_or_nothing s :
  reachable s ->
  exists s',
    resize_to_min s = Returns tt s' /\
    (filled_cnt s = 0 -> vsize (elem_vec s') = 1 /\ empty_cnt s' = 1) /\
    (forall pos, last_used (elem_vec s) pos ->
       let cnt := vsize (elem_vec s) - 1 - pos in
       (cnt = 0 \/ empty_cnt s - cnt < 4 -> s' = s) /\
       (cnt <> 0 -> 4 <= empty_cnt s - cnt ->
        vsize (elem_vec s') = pos + 1 /\ trailing_free (elem_vec s') = 0)).
Proof.
  intros (fl & ul & HI)%reachable_inv. pose proof (inv_size _ _ _ HI) as Hsz.
  pose proof max_size_bounds as Hms. unfold resize_to_min.
  destruct (decide (vsize (elem_vec s) = 1)) as [H1|H1].
  - exists s. rewrite resize_same by done. split_and!; [done| |].
    + intros Hz. split; [done|].
      pose proof (inv_count _ _ _ HI) as Hc.
      rewrite (inv_empty_cnt _ _ _ HI). rewrite (inv_filled_cnt _ _ _ HI) in Hz. lia.
    + intros pos Hlast. cbv zeta. pose proof (last_used_bound _ _ Hlast).
      split; [done|lia].
  - destruct (resize_down_inv _ _ _ 1 HI ltac:(lia)) as (s' & fl' & Hs' & HI' & _).
    exists s'. split_and!; [done| |].
    + intros Hz.
      destruct (resize_down_none s 1 Hsz ltac:(lia)) as (s0 & Hs0 & HI0 & Hsz0).
      { intros j Hj. by eapply inv_no_filled_all_free. }
      assert (s0 = s') as -> by congruence. simpl in *.
      split; [done|]. by rewrite (inv_empty_cnt _ _ _ HI0).
    + intros pos Hlast. cbv zeta. pose proof (last_used_bound _ _ Hlast) as Hb.
      pose proof (trailing_le_empty_cnt _ _ _ _ HI Hlast) as Hcnt.
      pose proof (inv_count _ _ _ HI) as Hcount.
      pose proof (inv_empty_cnt _ _ _ HI) as Hec. split.
      * intros [Hz|Hlt].
        -- rewrite resize_down_last in Hs'; [congruence|done|lia|].
           replace (vsize (elem_vec s) - 1) with pos by lia. apply Hlast.
        -- destruct (decide (pos = vsize (elem_vec s) - 1)) as [->|Hne].
           ++ rewrite resize_down_last in Hs'; [congruence|done|lia|apply Hlast].
           ++ rewrite (resize_down_reject s 1 pos) in Hs';
                [congruence|done|lia|done|done|lia|lia].
      * intros Hnz Hge.
        destruct (resize_down_trunc _ _ _ 1 pos HI ltac:(lia) Hlast ltac:(lia) Hge)
          as (s0 & Hs0 & Hsz0 & _ & _ & _ & Hkeep).
        assert (s0 = s') as -> by congruence. simpl in Hsz0.
        assert (vsize (elem_vec s') = pos + 1) as Hsz' by lia.
        split; [done|].
        assert (last_used (elem_vec s') pos) as Hlast'.
        { split; [|intros j Hj; lia].
          unfold is_used. rewrite Hkeep by apply Hlast. apply Hlast. }
        rewrite (trailing_free_last_used _ _ Hlast'). lia.
Qed.

Lemma resize_to_min_all_or_nothing_witness :
  exists s',
    resize_to_min scattered = Returns tt s' /\
    (filled_cnt scattered = 0 -> vsize (elem_vec s') = 1 /\ empty_cnt s' = 1) /\
    (forall pos, last_used (elem_vec scattered) pos ->
       let cnt := vsize (elem_vec scattered) - 1 - pos in
       (cnt = 0 \/ empty_cnt scattered - cnt < 4 -> s' = scattered) /\
       (cnt <> 0 -> 4 <= empty_cnt scattered - cnt ->
        vsize (elem_vec s') = pos + 1 /\ trailing_free (elem_vec s') = 0)).
Proof. apply (resize_to_min_all_or_nothing scattered scattered_reachable). Defined.

(** X14: on any reachable state, [clear()] followed by [resize_to_min()]
    returns the allocator to exactly the state of a default-constructed
    [SlabManager()]: one empty slot. *)
Theorem clear_then_resize_to_min_is_default s :
  reachable s ->
  exists s1 s2,
    clear s = Returns tt s1 /\ resize_to_min s1 = Returns tt s2 /\
    construct_default = Returns tt s2.
Proof.
  intros (fl & ul & HI)%reachable_inv. pose proof (inv_size _ _ _ HI) as Hsz.
  destruct (clear_spec _ _ _ HI) as (s1 & Hs1 & HI1 & Hsz1).
  destruct construct_default_spec as (s0 & Hs0 & HI0 & Hsz0).
  unfold resize_to_min.
  destruct (decide (vsize (elem_vec s) = 1)) as [H1|H1].
  - exists s1, s1. rewrite resize_same by lia. split_and!; [done..|].
    rewrite H1 in HI1. by rewrite (fresh_state_unique s1 s0 1) by (done || lia).
  - destruct (resize_down_none s1 1) as (s2 & Hs2 & HI2 & Hsz2); [lia|lia| |].
    { intros j Hj. eapply inv_all_free; [done|lia]. }
    simpl in *. exists s1, s2. split_and!; [done..|].
    by rewrite (fresh_state_unique s2 s0 1).
Qed.

Lemma clear_then_resize_to_min_is_default_witness :
  exists s1 s2,
    clear scattered = Returns tt s1 /\ resize_to_min s1 = Returns tt s2 /\
    construct_default = Returns tt s2.
Proof.
  apply (clear_then_resize_to_min_is_default scattered scattered_reachable).
Defined.

(** ** More on [resize] *)

(** X15: shrinking an allocator that has no filled slot is a fresh
    construction: on a reachable state with [filled_count() == 0],
    [resize(n)] with [n < size()] leaves exactly the state of
    [SlabManager(n)], of [max(n, 1)] slots. *)
Theorem downsize_of_empty_is_construct s n :
  reachable s -> filled_cnt s = 0 -> 0 <= n < vsize (elem_vec s) ->
  exists s',
    resize n s = Returns tt s' /\ construct n = Returns tt s' /\
    vsize (elem_vec s') = Z.max n 1.
Proof.
  intros (fl & ul & HI)%reachable_inv Hz Hn. pose proof (inv_size _ _ _ HI) as Hsz.
  destruct (resize_down_none s n Hsz Hn) as (s' & Hs' & HI' & Hsz').
  { intros j Hj. by eapply inv_no_filled_all_free. }
  destruct (construct_spec n) as (s0 & Hs0 & HI0 & Hsz0); [case_decide; lia|].
  simpl in *. assert (s0 = s') as -> by (by eapply fresh_state_unique).
  exists s'. split_and!; [done..|]. rewrite Hsz'. case_decide; lia.
Qed.

Lemma downsize_of_empty_is_construct_witness :
  exists s',
    resize 2 fresh7 = Returns tt s' /\ construct 2 = Returns tt s' /\
    vsize (elem_vec s') = Z.max 2 1.
Proof.
  apply (downsize_of_empty_is_construct fresh7 2 fresh7_reachable); by vm_compute.
Defined.

(** X16: growing keeps the old empty list, in its order, behind the new
    slots: on a reachable state with a non-empty empty list, whenever
    [resize(size() + k)] with [k > 0] returns, the next [k] calls of
    [acquire()] return (they use up the new slots) and the [acquire()] after
    them returns the slot that headed the empty list before the resize. *)
Theorem upsize_keeps_old_empty_list s k s1 :
  reachable s -> 0 < k -> empty_head s <> NULL_INDEX ->
  resize (vsize (elem_vec s) + k) s = Returns tt s1 ->
  exists l s2 s3,
    acquire_n (Z.to_nat k) s1 = Returns l s2 /\
    acquire s2 = Returns (empty_head s) s3.
Proof.
  intros (fl & ul & HI)%reachable_inv Hk Hne Hret.
  destruct (decide (vsize (elem_vec s) + k <= max_size)) as [Hmax|Hbig].
  2:{ rewrite resize_up_throws in Hret by lia. discriminate Hret. }
  destruct (inv_head_free _ _ _ HI Hne) as (fl' & ->).
  destruct (resize_up _ _ _ (vsize (elem_vec s) + k) HI ltac:(lia))
    as (s0 & Hs0 & HI1 & _).
  assert (s0 = s1) as -> by congruence.
  destruct (acquire_n_pops _ _ _ _ HI1) as (s2 & Hs2 & HI2).
  rewrite length_reverse, length_seqZ in Hs2.
  replace (Z.to_nat (vsize (elem_vec s) + k - vsize (elem_vec s)))
    with (Z.to_nat k) in Hs2 by lia.
  destruct (acquire_pop _ _ _ _ HI2) as (s3 & Hs3 & _).
  eauto 10.
Qed.

Lemma upsize_keeps_old_empty_list_witness :
  exists l s2 s3,
    acquire_n (Z.to_nat 2)
      (state_of (resize (vsize (elem_vec scattered) + 2) scattered)) =
      Returns l s2 /\
    acquire s2 = Returns (empty_head scattered) s3.
Proof.
  apply (upsize_keeps_old_empty_list scattered 2 _ scattered_reachable);
    [lia|by vm_compute|by vm_compute].
Defined.
